(** * The falling-block game of [examples/11-tetris]

    A shallow embedding of the game component
    ([app/components/TetrisGame.tsx]), of the board renderer
    ([app/components/Board.tsx]) and of the data model
    ([app/types/tetris.ts]).

    JavaScript numbers that hold coordinates, counters and scores are
    integers ([Z]); a cell of the grid is [option string] ([None] is
    [null]); the React state update [setGameState] is an explicit value, a
    [SetStateAction], that the handlers return instead of performing. *)

From Stdlib Require Import ZArith Lia.
From stdpp Require Import base option list strings gmap.

Local Open Scope Z_scope.

(** ** Data model ([app/types/tetris.ts]) *)

Module TetrominoType.
Inductive t := I | O | T | S | Z | J | L.
End TetrominoType.

Record Position := { x : Z; y : Z }.

Record Tetromino := {
  type : TetrominoType.t;
  shape : list (list Z);
  position : Position;
  color : string;
}.

Abbreviation Row := (list (option string)) (only parsing).
Abbreviation Board := (list (list (option string))) (only parsing).

Record GameState := {
  board : Board;
  currentPiece : option Tetromino;
  nextPiece : option Tetromino;
  score : Z;
  level : Z;
  lines : Z;
  gameOver : bool;
  paused : bool;
}.

(** What a handler hands to [setGameState]: a state, or a function of the
    state React holds at the time the update is applied. *)
Inductive SetStateAction :=
  | SetValue (s : GameState)
  | SetUpdater (f : GameState -> GameState).

(** A handler calls [setGameState] at most once on every path; [None] is the
    path that returns without calling it. *)
Definition dispatch (a : option SetStateAction) (prev : GameState) : GameState :=
  match a with
  | None => prev
  | Some (SetValue s) => s
  | Some (SetUpdater f) => f prev
  end.

(** ** The occupied cells of a shape mask

    [shape[r][c]] is occupied when it is truthy, that is, not [0]. The cells
    are listed row by row, the order of the nested [for] loops. *)

Definition rowCells (r : nat) (row : list Z) : list (nat * nat) :=
  omap id (imap (λ c v, if decide (v = 0) then None else Some (r, c)) row).

Definition shapeCells (sh : list (list Z)) : list (nat * nat) :=
  mjoin (imap rowCells sh).

Definition occupied (sh : list (list Z)) (r c : nat) : Prop :=
  ∃ row v, sh !! r = Some row ∧ row !! c = Some v ∧ v ≠ 0.

Section Engine.

(** The grid dimensions and the helpers of [app/lib/gameLogic.ts] and
    [app/lib/tetrominos.ts] whose tables the component only imports. *)
Variable BOARD_WIDTH BOARD_HEIGHT : Z.
Variable calculateScore : Z -> Z -> Z.
Variable calculateLevel : Z -> Z.
Variable rotateTetromino : Tetromino -> Tetromino.

(** [createTetromino()] draws from a random source; the source is threaded
    through explicitly. *)
Variable Rng : Type.
Variable createTetromino : Rng -> Tetromino * Rng.

(** Modelled from the spec: [createEmptyBoard] of [app/lib/gameLogic.ts],
    "a grid of the given dimensions, all cells empty". *)
Definition createEmptyBoard : Board :=
  replicate (Z.to_nat BOARD_HEIGHT) (replicate (Z.to_nat BOARD_WIDTH) None).

(** The grid cell at column [cx], row [cy], when there is one. *)
Definition cellAt (b : Board) (cx cy : Z) : option (option string) :=
  if (0 <=? cx) && (0 <=? cy)
  then b !! Z.to_nat cy ≫= λ row, row !! Z.to_nat cx
  else None.

Definition cellFree (b : Board) (cx cy : Z) : bool :=
  (0 <=? cx) && (cx <? BOARD_WIDTH) && (0 <=? cy) && (cy <? BOARD_HEIGHT)
  && bool_decide (cellAt b cx cy = Some None).

(** Modelled from the spec: [isValidMove] of [app/lib/gameLogic.ts], "computes
    the piece's occupied cells shifted by (dx, dy) from its current origin and
    returns true iff every occupied cell lies within [0,width)×[0,height) and
    targets an empty grid cell". The component calls it with two arguments
    (offsets defaulting to 0) and with four. *)
Definition isValidMove (b : Board) (piece : Tetromino) (offsetX offsetY : Z) : bool :=
  forallb
    (λ rc, cellFree b (piece.(position).(x) + Z.of_nat rc.2 + offsetX)
                      (piece.(position).(y) + Z.of_nat rc.1 + offsetY))
    (shapeCells piece.(shape)).

Definition setCell (b : Board) (cx cy : Z) (v : option string) : Board :=
  if (0 <=? cx) && (0 <=? cy)
  then alter (λ row, <[Z.to_nat cx := v]> row) (Z.to_nat cy) b
  else b.

(** Modelled from the spec: [mergePieceToBoard] of [app/lib/gameLogic.ts], "a
    new grid identical to the input except the piece's occupied cells (at its
    current origin) are set to the piece's color token"; the placement is
    not validated again. *)
Definition mergePieceToBoard (b : Board) (piece : Tetromino) : Board :=
  foldl
    (λ acc rc, setCell acc (piece.(position).(x) + Z.of_nat rc.2)
                           (piece.(position).(y) + Z.of_nat rc.1)
                           (Some piece.(color)))
    b (shapeCells piece.(shape)).

(** "A row is full iff every cell in it is non-empty." *)
Definition isFullRow (row : Row) : bool :=
  forallb (λ cell, bool_decide (cell ≠ None)) row.

Definition emptyRow : Row := replicate (Z.to_nat BOARD_WIDTH) None.

(** Modelled from the spec: [clearLines] of [app/lib/gameLogic.ts], "all full
    rows are removed simultaneously, remaining rows retain their relative
    order, and that many empty rows are inserted at the top"; the count is
    the number of rows removed. *)
Definition clearLines (b : Board) : Board * Z :=
  let remaining := filter (λ row, isFullRow row = false) b in
  let removed := (length b - length remaining)%nat in
  (replicate removed emptyRow ++ remaining, Z.of_nat removed).

(** The number of full rows of a grid. *)
Definition fullRows (b : Board) : nat :=
  length (filter (λ row, isFullRow row = true) b).

(** ** The game component ([app/components/TetrisGame.tsx])

    Every handler closes over [gameState], the state of the render that
    created it, and returns the [setGameState] call it makes, if any. *)

(** [startGame]: two fresh pieces and an empty grid replace the state. *)
Definition startGame (rng : Rng) : option SetStateAction * Rng :=
  let '(newCurrentPiece, rng1) := createTetromino rng in
  let '(newNextPiece, rng2) := createTetromino rng1 in
  (Some (SetValue {|
     board := createEmptyBoard;
     currentPiece := Some newCurrentPiece;
     nextPiece := Some newNextPiece;
     score := 0;
     level := 0;
     lines := 0;
     gameOver := false;
     paused := false |}), rng2).

(** [{ ...piece, position: { x: x + dx, y: y + dy } }] *)
Definition shiftPiece (piece : Tetromino) (dx dy : Z) : Tetromino :=
  {| type := piece.(type);
     shape := piece.(shape);
     position := {| x := piece.(position).(x) + dx;
                    y := piece.(position).(y) + dy |};
     color := piece.(color) |}.

(** [gameState.nextPiece || createTetromino()] *)
Definition nextOrCreate (queued : option Tetromino) (rng : Rng) : Tetromino * Rng :=
  match queued with
  | Some q => (q, rng)
  | None => createTetromino rng
  end.

Definition movePiece (gameState : GameState) (dx dy : Z) (rng : Rng)
  : option SetStateAction * Rng :=
  if gameState.(gameOver) || gameState.(paused) then (None, rng) else
  match gameState.(currentPiece) with
  | None => (None, rng)
  | Some current =>
    let newPiece := shiftPiece current dx dy in
    if isValidMove gameState.(board) newPiece 0 0 then
      (Some (SetUpdater (λ prev, {|
         board := prev.(board);
         currentPiece := Some newPiece;
         nextPiece := prev.(nextPiece);
         score := prev.(score);
         level := prev.(level);
         lines := prev.(lines);
         gameOver := prev.(gameOver);
         paused := prev.(paused) |})), rng)
    else if 0 <? dy then
      (* Lock piece *)
      let newBoard := mergePieceToBoard gameState.(board) current in
      let '(clearedBoard, linesCleared) := clearLines newBoard in
      let newLines := gameState.(lines) + linesCleared in
      let newLevel := calculateLevel newLines in
      let newScore :=
        gameState.(score) + calculateScore linesCleared gameState.(level) in
      let '(next, rng1) := nextOrCreate gameState.(nextPiece) rng in
      (* Check game over *)
      if negb (isValidMove clearedBoard next 0 0) then
        (Some (SetUpdater (λ prev, {|
           board := clearedBoard;
           currentPiece := prev.(currentPiece);
           nextPiece := prev.(nextPiece);
           score := prev.(score);
           level := prev.(level);
           lines := prev.(lines);
           gameOver := true;
           paused := prev.(paused) |})), rng1)
      else
        let '(created, rng2) := createTetromino rng1 in
        (Some (SetValue {|
           board := clearedBoard;
           currentPiece := Some next;
           nextPiece := Some created;
           score := newScore;
           level := newLevel;
           lines := newLines;
           gameOver := false;
           paused := false |}), rng2)
    else (None, rng)
  end.

(** A lock event carried through to the spawn of the next piece, as a
    relation between the state [gs] it starts in, with [current] the active
    piece, and the state [gs'] it ends in. *)
Definition lockOutcome (gs : GameState) (current : Tetromino) (rng : Rng)
    (gs' : GameState) : Prop :=
  let cleared := clearLines (mergePieceToBoard gs.(board) current) in
  let spawn := nextOrCreate gs.(nextPiece) rng in
  gs'.(board) = cleared.1
  ∧ gs'.(lines) = gs.(lines) + cleared.2
  ∧ gs'.(score) = gs.(score) + calculateScore cleared.2 gs.(level)
  ∧ gs'.(level) = calculateLevel (gs.(lines) + cleared.2)
  ∧ gs'.(currentPiece) = Some spawn.1
  ∧ gs'.(nextPiece) = Some (createTetromino spawn.2).1.

Definition rotate (gameState : GameState) : option SetStateAction :=
  if gameState.(gameOver) || gameState.(paused) then None else
  match gameState.(currentPiece) with
  | None => None
  | Some current =>
    let rotated := rotateTetromino current in
    if isValidMove gameState.(board) rotated 0 0 then
      Some (SetUpdater (λ prev, {|
        board := prev.(board);
        currentPiece := Some rotated;
        nextPiece := prev.(nextPiece);
        score := prev.(score);
        level := prev.(level);
        lines := prev.(lines);
        gameOver := prev.(gameOver);
        paused := prev.(paused) |}))
    else None
  end.

(** [while (isValidMove(board, piece, 0, dropDistance + 1)) dropDistance++].
    The loop has no bound of its own; [fuel] counts the tests it may make
    and [None] is the run that has not left the loop by then. *)
Fixpoint dropLoop (fuel : nat) (b : Board) (piece : Tetromino) (dropDistance : Z)
  : option Z :=
  match fuel with
  | O => None
  | S fuel' =>
    if isValidMove b piece 0 (dropDistance + 1)
    then dropLoop fuel' b piece (dropDistance + 1)
    else Some dropDistance
  end.

Definition hardDrop (fuel : nat) (gameState : GameState) (rng : Rng)
  : option (option SetStateAction * Rng) :=
  if gameState.(gameOver) || gameState.(paused) then Some (None, rng) else
  match gameState.(currentPiece) with
  | None => Some (None, rng)
  | Some current =>
    dropDistance ← dropLoop fuel gameState.(board) current 0;
    if 0 <? dropDistance
    then Some (movePiece gameState 0 dropDistance rng)
    else Some (None, rng)
  end.

Definition togglePause (gameState : GameState) : option SetStateAction :=
  if negb gameState.(gameOver) then
    Some (SetUpdater (λ prev, {|
      board := prev.(board);
      currentPiece := prev.(currentPiece);
      nextPiece := prev.(nextPiece);
      score := prev.(score);
      level := prev.(level);
      lines := prev.(lines);
      gameOver := prev.(gameOver);
      paused := negb prev.(paused) |}))
  else None.

(** The calls that the key handler and the game loop make on the
    component. Calls are served one at a time, each by the handlers of the
    render of the state the previous call left: [perform] runs the handler
    on that state and applies the update it returns to it. *)
Inductive Call :=
  | CallMovePiece (dx dy : Z)
  | CallRotate
  | CallHardDrop
  | CallTogglePause.

Definition perform (fuel : nat) (st : GameState * Rng) (call : Call)
  : option (GameState * Rng) :=
  match call with
  | CallMovePiece dx dy =>
    let '(a, rng') := movePiece st.1 dx dy st.2 in Some (dispatch a st.1, rng')
  | CallRotate => Some (dispatch (rotate st.1) st.1, st.2)
  | CallHardDrop =>
    '(a, rng') ← hardDrop fuel st.1 st.2; Some (dispatch a st.1, rng')
  | CallTogglePause => Some (dispatch (togglePause st.1) st.1, st.2)
  end.

Fixpoint performAll (fuel : nat) (st : GameState * Rng) (calls : list Call)
  : option (GameState * Rng) :=
  match calls with
  | [] => Some st
  | call :: rest => st' ← perform fuel st call; performAll fuel st' rest
  end.

End Engine.

(** ** The board renderer ([app/components/Board.tsx])

    The renderer is the one place of the program that assigns into an
    array, so here arrays are objects: a row is a location of a heap that
    holds its cells, and a board is the array of its rows' locations. The
    outer array is never assigned to and stays a list. *)

(** An element of an array of cells; a hole is what an assignment past the
    end of an array leaves between the old end and the new element. *)
Inductive Slot := Hole | Elem (cell : option string).

Abbreviation loc := nat (only parsing).
Abbreviation Heap := (gmap nat (list Slot)) (only parsing).

(** [cells[i] = v]: in range it replaces, past the end it extends. *)
Definition arraySet (cells : list Slot) (i : nat) (v : Slot) : list Slot :=
  if decide (i < length cells)%nat
  then <[i := v]> cells
  else cells ++ replicate (i - length cells) Hole ++ [v].

(** [board.map((row) => [...row])]: every row is spread into a newly
    allocated array. The second component is [None] when a row is not an
    array of the heap (a [TypeError]). *)
Fixpoint copyRows (h : Heap) (rows : list loc) : Heap * option (list loc) :=
  match rows with
  | [] => (h, Some [])
  | l :: rest =>
    match h !! l with
    | None => (h, None)
    | Some cells =>
      let l' := fresh (dom h) in
      let '(h', copies) := copyRows (<[l' := cells]> h) rest in
      (h', (l' ::.) <$> copies)
    end
  end.

(** A board value, as the game state holds it, laid out in the heap. *)
Definition represents (h : Heap) (rows : list loc) (b : Board) : Prop :=
  Forall2 (λ l row, h !! l = Some (Elem <$> row)) rows b.

Section Render.

Variable BOARD_WIDTH BOARD_HEIGHT : Z.

(** The body of the two nested [for] loops, over the occupied cells of the
    shape in the loops' order. [displayBoard[boardY][boardX] = color] throws
    a [TypeError] when [displayBoard[boardY]] is undefined: the flag is
    [false] then, and the heap is the one reached so far. *)
Fixpoint overlay (piece : Tetromino) (displayBoard : list loc)
    (cells : list (nat * nat)) (h : Heap) : Heap * bool :=
  match cells with
  | [] => (h, true)
  | rc :: rest =>
    let boardY := piece.(position).(y) + Z.of_nat rc.1 in
    let boardX := piece.(position).(x) + Z.of_nat rc.2 in
    if (0 <=? boardY) && (boardY <? BOARD_HEIGHT)
       && (0 <=? boardX) && (boardX <? BOARD_WIDTH)
    then
      match displayBoard !! Z.to_nat boardY with
      | None => (h, false)
      | Some l =>
        match h !! l with
        | None => (h, false)
        | Some row =>
          overlay piece displayBoard rest
            (<[l := arraySet row (Z.to_nat boardX) (Elem (Some piece.(color)))]> h)
        end
      end
    else overlay piece displayBoard rest h
  end.

(** The display board that [Board] computes before it returns its markup:
    the heap after the computation and the rows of [displayBoard], or
    [None] when the computation threw. *)
Definition displayBoard (h : Heap) (board : list loc)
    (currentPiece : option Tetromino) : Heap * option (list loc) :=
  match copyRows h board with
  | (h1, None) => (h1, None)
  | (h1, Some display) =>
    match currentPiece with
    | None => (h1, Some display)
    | Some piece =>
      let '(h2, ok) := overlay piece display (shapeCells piece.(shape)) h1 in
      (h2, if ok then Some display else None)
    end
  end.

(** The piece has an occupied cell over row [i], column [j] of the grid. *)
Definition covers (piece : Tetromino) (i j : nat) : Prop :=
  ∃ r c, occupied piece.(shape) r c
    ∧ piece.(position).(y) + Z.of_nat r = Z.of_nat i
    ∧ piece.(position).(x) + Z.of_nat c = Z.of_nat j.

(** What the cells [cells] of the piece's mask put over row [i], column [j]. *)
Definition paints (piece : Tetromino) (cells : list (nat * nat)) (i j : nat) : Prop :=
  Exists (λ rc, piece.(position).(y) + Z.of_nat rc.1 = Z.of_nat i
              ∧ piece.(position).(x) + Z.of_nat rc.2 = Z.of_nat j) cells.

End Render.

(** ** The markup of the board ([app/components/Board.tsx], the [return])

    [displayBoard.map((row, y) => row.map((cell, x) => <div ... />))]: one
    element per cell, styled by the cell. [map] does not call its function
    on a hole, so a hole yields no element. The [key] of an element is left
    out. *)

Record CellStyle := {
  backgroundColor : string;
  boxShadow : string;
}.

(** A cell is truthy when it is a string other than the empty one. *)
Definition truthy (cell : option string) : bool :=
  match cell with
  | Some c => negb (String.eqb c "")
  | None => false
  end.

(** [cell || "#1f2937"] and [cell ? "inset ..." : "none"] *)
Definition cellStyle (cell : option string) : CellStyle :=
  {| backgroundColor := if truthy cell then default "" cell else "#1f2937";
     boxShadow := if truthy cell
                  then "inset 0 0 0 1px rgba(255,255,255,0.3)"
                  else "none" |}.

Definition cellElement (slot : Slot) : option CellStyle :=
  match slot with
  | Hole => None
  | Elem cell => Some (cellStyle cell)
  end.

(** The elements of the rows at [rows], read from the heap. *)
Fixpoint rowElements (h : Heap) (rows : list loc)
  : option (list (list (option CellStyle))) :=
  match rows with
  | [] => Some []
  | l :: rest =>
    match h !! l, rowElements h rest with
    | Some row, Some elements => Some ((cellElement <$> row) :: elements)
    | _, _ => None
    end
  end.

Section Markup.

Variable BOARD_WIDTH BOARD_HEIGHT : Z.

(** The elements that the [Board] component returns, row by row, or [None]
    when the computation of the display board threw. ([Board] is here the
    name of the grid type, as in [app/types/tetris.ts].) *)
Definition BoardElements (h : Heap) (board : list loc)
    (currentPiece : option Tetromino)
  : option (list (list (option CellStyle))) :=
  match displayBoard BOARD_WIDTH BOARD_HEIGHT h board currentPiece with
  | (h', Some display) => rowElements h' display
  | (_, None) => None
  end.

End Markup.

(** ** The key handler of the game component

    [handleKeyDown] of [app/components/TetrisGame.tsx], registered on the
    window: it maps a key to one call of the handlers above. The boolean
    tells whether [e.preventDefault()] was called. *)

Section Keys.

Variable BOARD_WIDTH BOARD_HEIGHT : Z.
Variable calculateScore : Z -> Z -> Z.
Variable calculateLevel : Z -> Z.
Variable rotateTetromino : Tetromino -> Tetromino.
Variable Rng : Type.
Variable createTetromino : Rng -> Tetromino * Rng.

Definition handleKeyDown (fuel : nat) (gameState : GameState) (key : string)
    (rng : Rng) : option (bool * option SetStateAction * Rng) :=
  if gameState.(gameOver) then Some (false, None, rng) else
  if decide (key = "ArrowLeft") then
    let '(a, rng') :=
      movePiece BOARD_WIDTH BOARD_HEIGHT calculateScore calculateLevel Rng
        createTetromino gameState (-1) 0 rng in
    Some (true, a, rng')
  else if decide (key = "ArrowRight") then
    let '(a, rng') :=
      movePiece BOARD_WIDTH BOARD_HEIGHT calculateScore calculateLevel Rng
        createTetromino gameState 1 0 rng in
    Some (true, a, rng')
  else if decide (key = "ArrowDown") then
    let '(a, rng') :=
      movePiece BOARD_WIDTH BOARD_HEIGHT calculateScore calculateLevel Rng
        createTetromino gameState 0 1 rng in
    Some (true, a, rng')
  else if decide (key = "ArrowUp") then
    Some (true, rotate BOARD_WIDTH BOARD_HEIGHT rotateTetromino gameState, rng)
  else if decide (key = " ") then
    '(a, rng') ← hardDrop BOARD_WIDTH BOARD_HEIGHT calculateScore calculateLevel
                   Rng createTetromino fuel gameState rng;
    Some (true, a, rng')
  else if decide (key = "p" ∨ key = "P") then
    Some (true, togglePause gameState, rng)
  else Some (false, None, rng).

(** A key press served by the handler of the current state, and a run of
    key presses, each served after the render that follows the previous
    one. *)
Definition pressKey (fuel : nat) (st : GameState * Rng) (key : string)
  : option (GameState * Rng) :=
  '(_, a, rng') ← handleKeyDown fuel st.1 key st.2; Some (dispatch a st.1, rng').

Fixpoint pressKeys (fuel : nat) (st : GameState * Rng) (keys : list string)
  : option (GameState * Rng) :=
  match keys with
  | [] => Some st
  | key :: rest => st' ← pressKey fuel st key; pressKeys fuel st' rest
  end.

(** The active piece, when there is one, is a valid placement on the
    grid. *)
Definition wellPlaced (gs : GameState) : Prop :=
  ∀ current, gs.(currentPiece) = Some current →
    isValidMove BOARD_WIDTH BOARD_HEIGHT gs.(board) current 0 0 = true.

(** The level shown is the level of the line total shown. *)
Definition levelMatches (gs : GameState) : Prop :=
  gs.(level) = calculateLevel gs.(lines).

End Keys.

(** ** Renders and queued updates

    React holds the state of the component. A render hands the component a
    snapshot of it, [gameState]; the callbacks that the render creates
    ([useCallback] with [gameState] among the dependencies), and the key
    listener and the game loop that the effects of the render install, read
    that snapshot until the next render replaces them. A [setGameState]
    call does not change the snapshot: it is queued, and the next render
    applies the queue in order, a value as it is and an updater to the state
    that the updates before it have left. *)

Section Renders.

Variable BOARD_WIDTH BOARD_HEIGHT : Z.
Variable calculateScore : Z -> Z -> Z.
Variable calculateLevel : Z -> Z.
Variable rotateTetromino : Tetromino -> Tetromino.
Variable Rng : Type.
Variable createTetromino : Rng -> Tetromino * Rng.

Record Component := {
  rendered : GameState;
  queued : list SetStateAction;
}.

(** [setGameState(a)], or the path of a handler that does not call it. *)
Definition setGameState (a : option SetStateAction) (c : Component) : Component :=
  match a with
  | Some a => {| rendered := c.(rendered); queued := c.(queued) ++ [a] |}
  | None => c
  end.

(** The next render: the queue is applied, and the handlers, the listener
    and the loop are those of the new snapshot. *)
Definition render (c : Component) : Component :=
  {| rendered := foldl (λ prev a, dispatch (Some a) prev) c.(rendered) c.(queued);
     queued := [] |}.

(** The game loop, on a frame at which the drop interval has passed. The
    effect installs no loop when the snapshot is over, paused or without a
    piece; the loop it installs calls [movePiece(0, 1)]. *)
Definition gameLoop (gameState : GameState) (rng : Rng)
  : option SetStateAction * Rng :=
  if gameState.(gameOver) || gameState.(paused) then (None, rng) else
  match gameState.(currentPiece) with
  | None => (None, rng)
  | Some _ =>
    movePiece BOARD_WIDTH BOARD_HEIGHT calculateScore calculateLevel Rng
      createTetromino gameState 0 1 rng
  end.

(** What happens to a mounted component: a frame of the game loop, a key
    press, a render. *)
Inductive Event :=
  | Frame
  | KeyDown (key : string)
  | Render.

Definition step (fuel : nat) (st : Component * Rng) (e : Event)
  : option (Component * Rng) :=
  match e with
  | Frame =>
    let '(a, rng') := gameLoop st.1.(rendered) st.2 in
    Some (setGameState a st.1, rng')
  | KeyDown key =>
    '(_, a, rng') ← handleKeyDown BOARD_WIDTH BOARD_HEIGHT calculateScore
                      calculateLevel rotateTetromino Rng createTetromino
                      fuel st.1.(rendered) key st.2;
    Some (setGameState a st.1, rng')
  | Render => Some (render st.1, st.2)
  end.

Fixpoint run (fuel : nat) (st : Component * Rng) (events : list Event)
  : option (Component * Rng) :=
  match events with
  | [] => Some st
  | e :: rest => st' ← step fuel st e; run fuel st' rest
  end.

End Renders.

(** ** A sample instance

    The component runs against the helpers it imports. To evaluate it on
    concrete states they are instantiated here: a 10 by 20 grid, the
    classic reward table scaled by [level + 1], ten lines per level, a
    quarter turn of the mask for the rotation, and a generator that always
    deals the square piece at the top centre. The theorems do not depend on
    the instance: they hold for every choice of the helpers. *)

Module Sample.

Definition WIDTH : Z := 10.
Definition HEIGHT : Z := 20.

Definition calculateScore (linesCleared level : Z) : Z :=
  match linesCleared with
  | 1 => 40
  | 2 => 100
  | 3 => 300
  | 4 => 1200
  | _ => 0
  end * (level + 1).

Definition calculateLevel (totalLines : Z) : Z := totalLines / 10.

Definition rotateTetromino (piece : Tetromino) : Tetromino :=
  let rows := reverse piece.(shape) in
  let width := length (default [] (head piece.(shape))) in
  {| type := piece.(type);
     shape := (λ c, (λ row, default 0 (row !! c)) <$> rows) <$> seq 0 width;
     position := piece.(position);
     color := piece.(color) |}.

Definition square (px py : Z) : Tetromino :=
  {| type := TetrominoType.O;
     shape := [[1; 1]; [1; 1]];
     position := {| x := px; y := py |};
     color := "#facc15" |}.

Definition bar (px py : Z) : Tetromino :=
  {| type := TetrominoType.I;
     shape := [[1; 1; 1; 1]];
     position := {| x := px; y := py |};
     color := "#22d3ee" |}.

Definition tee (px py : Z) : Tetromino :=
  {| type := TetrominoType.T;
     shape := [[0; 1; 0]; [1; 1; 1]];
     position := {| x := px; y := py |};
     color := "#c084fc" |}.

Definition createTetromino (rng : nat) : Tetromino * nat := (square 4 0, S rng).

Definition gap : option string := None.
Definition block : option string := Some "#a855f7".

(** A stack that reaches the second row: row 1 lacks columns 4 and 5,
    rows 2 to 19 lack column 9 only, the square has just spawned and the
    tee is queued. *)
Definition stackedBoard : list (list (option string)) :=
  replicate 10 gap
  :: (replicate 4 block ++ replicate 2 gap ++ replicate 4 block)
  :: replicate 18 (replicate 9 block ++ [gap]).

Definition stacked : GameState :=
  {| board := stackedBoard;
     currentPiece := Some (square 4 0);
     nextPiece := Some (tee 3 0);
     score := 500;
     level := 0;
     lines := 7;
     gameOver := false;
     paused := false |}.

(** [stacked] once the square has locked: row 1 is cleared, the tee has no
    room and the game is over, with the pause flag as given. *)
Definition stackedOver (held : bool) : GameState :=
  {| board := (clearLines WIDTH (mergePieceToBoard stackedBoard (square 4 0))).1;
     currentPiece := Some (square 4 0);
     nextPiece := Some (tee 3 0);
     score := 500;
     level := 0;
     lines := 7;
     gameOver := true;
     paused := held |}.

(** The square rests on the floor and completes the bottom row, the tenth
    line of the game. *)
Definition nearlyClearedBoard : list (list (option string)) :=
  replicate 19 (replicate 10 gap)
  ++ [replicate 4 block ++ replicate 2 gap ++ replicate 4 block].

Definition nearlyCleared : GameState :=
  {| board := nearlyClearedBoard;
     currentPiece := Some (square 4 18);
     nextPiece := Some (square 4 0);
     score := 360;
     level := 0;
     lines := 9;
     gameOver := false;
     paused := false |}.

(** The bar lies on the floor against the left wall of an empty grid. *)
Definition cornered : GameState :=
  {| board := createEmptyBoard WIDTH HEIGHT;
     currentPiece := Some (bar 0 19);
     nextPiece := Some (square 4 0);
     score := 0;
     level := 0;
     lines := 0;
     gameOver := false;
     paused := false |}.

(** The square has just spawned on an empty grid. *)
Definition opening : GameState :=
  {| board := createEmptyBoard WIDTH HEIGHT;
     currentPiece := Some (square 4 0);
     nextPiece := Some (square 4 0);
     score := 0;
     level := 0;
     lines := 0;
     gameOver := false;
     paused := false |}.

(** A grid of two rows of three cells, laid out in a heap at locations 0
    and 1. *)
Definition smallGrid : list (list (option string)) :=
  [[gap; gap; block]; [block; gap; gap]].

Definition smallHeap : gmap nat (list Slot) :=
  <[0%nat := Elem <$> [gap; gap; block]]>
    (<[1%nat := Elem <$> [block; gap; gap]]> ∅).

End Sample.

(** ** The chat page ([src/unnamed/part_001], the page of the SSE chat demo)

    The reader loop of [connectSSE] and the update of the message list. A
    chunk is the string that [decoder.decode] returns; strings are
    sequences of characters, and the one character the loop looks for is
    the line feed. *)

Module Chat.

Record Message := {
  id : Z;
  username : string;
  content : string;
  timestamp : string;
}.

Definition LF : Ascii.ascii := Ascii.ascii_of_nat 10.

(** Puts a character in front of the first segment. *)
Definition extend (c : Ascii.ascii) (segments : list string) : list string :=
  match segments with
  | segment :: rest => String c segment :: rest
  | [] => [String c ""]
  end.

(** [s.split('\n\n')]: the segments between the occurrences of two line
    feeds in a row, found from the left and not overlapping; there is always
    at least one segment. *)
Fixpoint split (s : string) : list string :=
  match s with
  | EmptyString => [""]
  | String c rest =>
    match rest with
    | String c' rest' =>
      if Ascii.eqb c LF && Ascii.eqb c' LF
      then "" :: split rest'
      else extend c (split rest)
    | EmptyString => extend c (split rest)
    end
  end.

Section Reader.

(** The loop handles the values it receives without looking into them,
    except for two things it does with them. [Value] is a value of
    JavaScript, [undefined] and [null] included, and [Id] is what the [id]
    property of a value can be, [undefined] included (the id of a value
    that has no such property). *)
Variable Value : Type.
Variable Id : Type.

(** [v.id]: [None] when the read throws a [TypeError], as it does on
    [undefined] and on [null]. *)
Variable readId : Value -> option Id.

(** [a === b] *)
Variable strictEq : Id -> Id -> bool.

(** What the loop sees of [JSON.parse(data)]: an object whose [type] is
    ['message'], with the value of its [message] property ([undefined] when
    it has none), or any other value. *)
Inductive Parsed :=
  | MessageEvent (message : Value)
  | OtherValue.

(** [JSON.parse(data)], and the read of [parsed.type] that follows it
    inside the same [try]: [None] when one of them throws. *)
Variable JSON_parse : string -> option Parsed.

(** [prev.some((msg) => msg.id === message.id)], with [message] the value
    of [parsed.message]. The function is called on the elements in order
    until it returns true; each call reads [msg.id] and then [message.id],
    and [None] is the [TypeError] of a read that throws. On an empty list
    nothing is read. *)
Fixpoint some (prev : list Value) (message : Value) : option bool :=
  match prev with
  | [] => Some false
  | msg :: rest =>
    a ← readId msg;
    b ← readId message;
    if strictEq a b then Some true else some rest message
  end.

(** The updater handed to [setMessages]:
    [prev.some(...) ? prev : [...prev, parsed.message]]. React calls it when
    it next renders the page, outside the [try] of the loop: [None] is the
    [TypeError] that nothing catches. *)
Definition addMessage (prev : list Value) (message : Value) : option (list Value) :=
  found ← some prev message;
  Some (if found : bool then prev else prev ++ [message]).

(** The body of [for (const line of lines)], with the updates to the
    message list applied in the order they are queued. A line that does not
    parse, or parses to something else, is passed over. The message list is
    [None] once an updater has thrown: the render has failed, and the page
    has no message list any more. *)
Definition receiveLine (messages : option (list Value)) (line : string)
  : option (list Value) :=
  if String.prefix "data: " line then
    match JSON_parse (String.substring 6 (String.length line - 6) line) with
    | Some (MessageEvent message) => prev ← messages; addMessage prev message
    | Some OtherValue => messages
    | None => messages
    end
  else messages.

(** One turn of the reader loop on a chunk: [buffer += chunk], the split,
    [buffer = lines.pop() || ''], and the loop over the lines that are
    left. *)
Definition processChunk (st : string * option (list Value)) (chunk : string)
  : string * option (list Value) :=
  let buffer := st.1 +:+ chunk in
  let lines := split buffer in
  (default "" (last lines), foldl receiveLine st.2 (removelast lines)).

(** A value whose [id] can be read. *)
Definition readable (v : Value) : Prop := is_Some (readId v).

(** No element of the list has an id that is [===] to the id of an element
    after it. *)
Definition distinctIds (l : list Value) : Prop :=
  ∀ i j a b ia ib, (i < j)%nat → l !! i = Some a → l !! j = Some b →
    readId a = Some ia → readId b = Some ib → strictEq ia ib = false.

End Reader.

Arguments MessageEvent {Value} message.
Arguments OtherValue {Value}.

(** A stand-in to run the reader: a value is a message object or
    [undefined], ids are numbers, and [JSON.parse] knows four payloads: two
    messages, an event of type ['message'] that has no message, and a value
    of another type. Anything else does not parse. *)
Definition blankLine : string := String LF (String LF "").

Definition firstMessage : Message :=
  {| id := 1; username := "ada"; content := "hello"; timestamp := "09:00" |}.

Definition secondMessage : Message :=
  {| id := 2; username := "bob"; content := "hi"; timestamp := "09:01" |}.

Definition sampleId (v : option Message) : option Z := id <$> v.

Definition sampleParse (data : string) : option (Parsed (option Message)) :=
  if String.eqb data "first" then Some (MessageEvent (Some firstMessage))
  else if String.eqb data "second" then Some (MessageEvent (Some secondMessage))
  else if String.eqb data "bare" then Some (MessageEvent None)
  else if String.eqb data "ping" then Some OtherValue
  else None.

End Chat.

(** ** The high-score panel and the game-over dialog
    ([app/components/HighScores.tsx], which also holds [GameOverModal])

    Both talk to the server through [fetch]. What the server and the
    network do is an input here: the outcome of the request, as far as the
    code looks at it. The state is the one after the [finally] block. *)

Module Fetch.

(** What a [catch] clause can receive: an [Error] with its message, or a
    value that is not an [Error]. *)
Inductive Thrown :=
  | ErrorObject (message : string)
  | OtherThrown.

(** A response: its [ok] flag, its [status], and what reading its JSON
    body gives, a value or an exception. *)
Record Response (A : Type) := {
  ok : bool;
  status : Z;
  json : Thrown + A;
}.
Arguments ok {A} _.
Arguments status {A} _.
Arguments json {A} _.

(** [await fetch(...)]: an exception when the request itself fails. *)
Definition Outcome (A : Type) : Type := Thrown + Response A.

End Fetch.

Module HighScores.

Import Fetch.

Section Panel.

(** A row of the table; the panel only displays it. *)
Variable HighScore : Type.

Record State := {
  scores : list HighScore;
  loading : bool;
  error : string;
}.

(** [err instanceof Error ? err.message : "Failed to load scores"] *)
Definition caught (st : State) (e : Thrown) : State :=
  {| scores := st.(scores);
     loading := false;
     error := match e with
              | ErrorObject message => message
              | OtherThrown => "Failed to load scores"
              end |}.


(** What the panel shows under its title: the error line, when [error] is
    not empty, and one of three bodies. *)
Inductive Body :=
  | LoadingScores
  | NoScoresYet
  | Table (rows : list HighScore).

Definition errorLine (st : State) : option string :=
  if String.eqb st.(error) "" then None else Some st.(error).

Definition body (st : State) : Body :=
  if st.(loading) && (length st.(scores) =? 0)%nat then LoadingScores
  else if (length st.(scores) =? 0)%nat then NoScoresYet
  else Table st.(scores).


End Panel.

End HighScores.

Module GameOverModal.

Import Fetch.

Record State := {
  submitted : bool;
  submitting : bool;
  error : string;
}.

(** [errorData.detail] as [||] and [new Error] see it: a falsy value, or a
    truthy one with the string it converts to. *)
Inductive Detail :=
  | FalsyDetail
  | TruthyDetail (text : string).

(** [err instanceof Error ? err.message : "Failed to submit score"] *)
Definition caught (st : State) (e : Thrown) : State :=
  {| submitted := st.(submitted);
     submitting := false;
     error := match e with
              | ErrorObject message => message
              | OtherThrown => "Failed to submit score"
              end |}.

(** [handleSubmit], from [setError("")] to the end of [finally]. The body
    of the response is read only when the response is not ok and its status
    is not 401. *)
Definition handleSubmit (st : State) (outcome : Outcome Detail) : State :=
  let started := {| submitted := st.(submitted); submitting := true; error := "" |} in
  match outcome with
  | inl e => caught started e
  | inr response =>
    if negb response.(ok) then
      if response.(status) =? 401 then
        caught started (ErrorObject "Please sign in to submit your score")
      else
        match response.(json) with
        | inl e => caught started e
        | inr (TruthyDetail text) => caught started (ErrorObject text)
        | inr FalsyDetail => caught started (ErrorObject "Failed to submit score")
        end
    else {| submitted := true; submitting := false; error := "" |}
  end.

(** What the dialog shows under the final score, given whether the player
    is signed in ([None] while that is being asked). *)
Inductive Body :=
  | Submitted
  | CheckingSignIn
  | SignInPrompt
  | SubmitForm (errorLine : option string) (disabled : bool).

Definition body (isAuthenticated : option bool) (st : State) : Body :=
  if st.(submitted) then Submitted
  else match isAuthenticated with
       | None => CheckingSignIn
       | Some false => SignInPrompt
       | Some true =>
         SubmitForm (if String.eqb st.(error) "" then None else Some st.(error))
                    st.(submitting)
       end.

End GameOverModal.

(** * Properties *)

(** ** Occupied cells *)

Lemma elem_of_rowCells (r : nat) (row : list Z) (r' c : nat) :
  (r', c) ∈ rowCells r row ↔ r' = r ∧ ∃ v, row !! c = Some v ∧ v ≠ 0.
Proof.
  unfold rowCells. rewrite list_elem_of_omap. split.
  - intros (o & Hin & Ho). apply elem_of_lookup_imap in Hin as (i & v & -> & Hv).
    simpl in Ho. destruct (decide (v = 0)); simplify_eq. eauto.
  - intros (-> & v & Hv & Hne). exists (Some (r, c)). split; [|done].
    apply elem_of_lookup_imap. exists c, v. split; [|done].
    by destruct (decide (v = 0)).
Qed.

Lemma elem_of_shapeCells (sh : list (list Z)) (r c : nat) :
  (r, c) ∈ shapeCells sh ↔ occupied sh r c.
Proof.
  unfold shapeCells, occupied. rewrite list_elem_of_join. split.
  - intros (cells & Hin & Hcells).
    apply elem_of_lookup_imap in Hcells as (i & row & -> & Hrow).
    apply elem_of_rowCells in Hin as (-> & v & Hv & Hne). eauto.
  - intros (row & v & Hrow & Hv & Hne). exists (rowCells r row). split.
    + apply elem_of_rowCells. eauto.
    + apply elem_of_lookup_imap. eauto.
Qed.

Arguments clearLines : simpl never.
Arguments isValidMove : simpl never.

Section EngineFacts.

Variable BOARD_WIDTH BOARD_HEIGHT : Z.
Variable calculateScore : Z -> Z -> Z.
Variable calculateLevel : Z -> Z.
Variable rotateTetromino : Tetromino -> Tetromino.
Variable Rng : Type.
Variable createTetromino : Rng -> Tetromino * Rng.

Abbreviation cellFree := (cellFree BOARD_WIDTH BOARD_HEIGHT).
Abbreviation isValidMove := (isValidMove BOARD_WIDTH BOARD_HEIGHT).
Abbreviation clearLines := (clearLines BOARD_WIDTH).
Abbreviation emptyRow := (emptyRow BOARD_WIDTH).
Abbreviation movePiece :=
  (movePiece BOARD_WIDTH BOARD_HEIGHT calculateScore calculateLevel Rng createTetromino).
Abbreviation rotate := (rotate BOARD_WIDTH BOARD_HEIGHT rotateTetromino).
Abbreviation hardDrop :=
  (hardDrop BOARD_WIDTH BOARD_HEIGHT calculateScore calculateLevel Rng createTetromino).
Abbreviation startGame := (startGame BOARD_WIDTH BOARD_HEIGHT Rng createTetromino).
Abbreviation perform :=
  (perform BOARD_WIDTH BOARD_HEIGHT calculateScore calculateLevel rotateTetromino
     Rng createTetromino).
Abbreviation performAll :=
  (performAll BOARD_WIDTH BOARD_HEIGHT calculateScore calculateLevel rotateTetromino
     Rng createTetromino).
Abbreviation nextOrCreate := (nextOrCreate Rng createTetromino).
Abbreviation dropLoop := (dropLoop BOARD_WIDTH BOARD_HEIGHT).

(** ** Placement *)

Lemma cellFree_true (b : Board) (cx cy : Z) :
  cellFree b cx cy = true ↔
  0 ≤ cx < BOARD_WIDTH ∧ 0 ≤ cy < BOARD_HEIGHT ∧ cellAt b cx cy = Some None.
Proof.
  unfold cellFree. rewrite !andb_true_iff, bool_decide_eq_true.
  rewrite !Z.leb_le, !Z.ltb_lt. tauto.
Qed.

Lemma isValidMove_true (b : Board) (piece : Tetromino) (offsetX offsetY : Z) :
  isValidMove b piece offsetX offsetY = true ↔
  ∀ r c, occupied piece.(shape) r c →
    cellFree b (piece.(position).(x) + Z.of_nat c + offsetX)
               (piece.(position).(y) + Z.of_nat r + offsetY) = true.
Proof.
  unfold isValidMove. rewrite forallb_forall. split.
  - intros Hall r c Hocc.
    apply (Hall (r, c)), list_elem_of_In, elem_of_shapeCells, Hocc.
  - intros Hall [r c] Hin. apply Hall, elem_of_shapeCells, list_elem_of_In, Hin.
Qed.

(** C4. With zero offset, [isValidMove] answers true exactly when every
    occupied cell of the piece, at the piece's origin, lies within
    [0,width) × [0,height) and the grid cell under it is empty. The function
    is a pure function of the grid and the piece: it returns a boolean and
    nothing else. *)
Theorem isValidMove_zero_offset_iff (b : Board) (piece : Tetromino) :
  isValidMove b piece 0 0 = true ↔
  ∀ r c, occupied piece.(shape) r c →
    0 ≤ piece.(position).(x) + Z.of_nat c < BOARD_WIDTH ∧
    0 ≤ piece.(position).(y) + Z.of_nat r < BOARD_HEIGHT ∧
    cellAt b (piece.(position).(x) + Z.of_nat c)
             (piece.(position).(y) + Z.of_nat r) = Some None.
Proof.
  rewrite isValidMove_true. split; intros Hall r c Hocc.
  - specialize (Hall r c Hocc). rewrite !Z.add_0_r in Hall.
    by apply cellFree_true.
  - rewrite !Z.add_0_r. apply cellFree_true, Hall, Hocc.
Qed.

(** ** Clearing lines *)

Lemma length_filter_isFullRow (b : Board) :
  (length (filter (λ row, isFullRow row = false) b) + fullRows b)%nat = length b.
Proof.
  unfold fullRows. induction b as [|row b IH]; [done|].
  rewrite !filter_cons. destruct (isFullRow row) eqn:Hrow.
  - rewrite decide_False, decide_True by done. simpl. lia.
  - rewrite decide_True, decide_False by done. simpl. lia.
Qed.

Lemma emptyRow_all_empty : Forall (λ cell, cell = None) emptyRow.
Proof. apply Forall_replicate. reflexivity. Qed.

(** C3. On a grid with [k = fullRows b] full rows, [clearLines] reports [k]
    lines and returns a grid of the same height: its top [k] rows are empty
    rows, and below them stand the rows of [b] that are not full, all of
    them ([height - k]) and in the order they had in [b]. Every full row
    goes in the one call. *)
Theorem clearLines_full_rows (b : Board) :
  (clearLines b).2 = Z.of_nat (fullRows b)
  ∧ (fullRows b ≤ length b)%nat
  ∧ length (clearLines b).1 = length b
  ∧ take (fullRows b) (clearLines b).1 = replicate (fullRows b) emptyRow
  ∧ Forall (Forall (λ cell, cell = None)) (take (fullRows b) (clearLines b).1)
  ∧ drop (fullRows b) (clearLines b).1 = filter (λ row, isFullRow row = false) b
  ∧ length (drop (fullRows b) (clearLines b).1) = (length b - fullRows b)%nat
  ∧ Forall (λ row, isFullRow row = false) (drop (fullRows b) (clearLines b).1).
Proof.
  pose proof (length_filter_isFullRow b) as Hlen.
  assert (Hk : (length b - length (filter (λ row, isFullRow row = false) b))%nat
               = fullRows b) by lia.
  unfold clearLines. simpl. rewrite Hk.
  assert (Htake : take (fullRows b)
            (replicate (fullRows b) emptyRow ++ filter (λ row, isFullRow row = false) b)
          = replicate (fullRows b) emptyRow).
  { rewrite take_app_length'; [done|]. by rewrite length_replicate. }
  assert (Hdrop : drop (fullRows b)
            (replicate (fullRows b) emptyRow ++ filter (λ row, isFullRow row = false) b)
          = filter (λ row, isFullRow row = false) b).
  { rewrite drop_app_length'; [done|]. by rewrite length_replicate. }
  rewrite Htake, Hdrop. repeat split.
  - lia.
  - rewrite length_app, length_replicate. lia.
  - apply Forall_replicate, emptyRow_all_empty.
  - lia.
  - apply Forall_forall. intros row Hin. by apply list_elem_of_filter in Hin as [? _].
Qed.

(** ** Guards of the handlers *)

Lemma movePiece_guarded (gs : GameState) (dx dy : Z) (rng : Rng) :
  gs.(gameOver) || gs.(paused) = true → movePiece gs dx dy rng = (None, rng).
Proof. intros Hg. unfold movePiece. by rewrite Hg. Qed.

Lemma rotate_guarded (gs : GameState) :
  gs.(gameOver) || gs.(paused) = true → rotate gs = None.
Proof. intros Hg. unfold rotate. by rewrite Hg. Qed.

Lemma hardDrop_guarded (fuel : nat) (gs : GameState) (rng : Rng) :
  gs.(gameOver) || gs.(paused) = true → hardDrop fuel gs rng = Some (None, rng).
Proof. intros Hg. unfold hardDrop. by rewrite Hg. Qed.

(** The handlers of a render whose snapshot is over: [movePiece], [rotate],
    [hardDrop] and [togglePause] make no [setGameState] call, so a run of
    calls that are each served by such a render leaves the state as it is;
    [startGame] is the one handler that still acts, and it replaces the
    state as a whole. *)
Lemma finished_render_is_inert (gs : GameState) :
  gs.(gameOver) = true →
  (∀ dx dy rng, movePiece gs dx dy rng = (None, rng)
     ∧ dispatch (movePiece gs dx dy rng).1 gs = gs)
  ∧ (rotate gs = None ∧ dispatch (rotate gs) gs = gs)
  ∧ (∀ fuel rng, hardDrop fuel gs rng = Some (None, rng))
  ∧ (togglePause gs = None ∧ dispatch (togglePause gs) gs = gs)
  ∧ (∀ fuel calls rng, performAll fuel (gs, rng) calls = Some (gs, rng))
  ∧ (∀ rng, ∃ s, (startGame rng).1 = Some (SetValue s)
       ∧ dispatch (startGame rng).1 gs = s
       ∧ s.(gameOver) = false ∧ s.(paused) = false
       ∧ s.(board) = createEmptyBoard BOARD_WIDTH BOARD_HEIGHT
       ∧ s.(score) = 0 ∧ s.(level) = 0 ∧ s.(lines) = 0).
Proof.
  intros Hover.
  assert (Hg : gs.(gameOver) || gs.(paused) = true) by (by rewrite Hover).
  assert (Hpause : togglePause gs = None) by (unfold togglePause; by rewrite Hover).
  split; [|split; [|split; [|split; [|split]]]].
  - intros dx dy rng. by rewrite movePiece_guarded.
  - by rewrite rotate_guarded.
  - intros fuel rng. by apply hardDrop_guarded.
  - by rewrite Hpause.
  - intros fuel calls rng. induction calls as [|call rest IH]; [done|].
    assert (Hone : perform fuel (gs, rng) call = Some (gs, rng)).
    { destruct call as [dx dy| | |]; unfold perform; cbn [fst snd].
      - by rewrite movePiece_guarded.
      - by rewrite rotate_guarded.
      - by rewrite hardDrop_guarded.
      - by rewrite Hpause. }
    simpl. by rewrite Hone.
  - intros rng. unfold startGame.
    destruct (createTetromino rng) as [p1 rng1].
    destruct (createTetromino rng1) as [p2 rng2]. simpl. eauto 10.
Qed.

(** C6. While [paused] is set and the game is not over, [movePiece],
    [rotate] and [hardDrop] make no [setGameState] call: the state stays as
    it is, pause flag and all, through any run of such calls. *)
Theorem paused_accepts_no_move (gs : GameState) :
  gs.(paused) = true → gs.(gameOver) = false →
  (∀ dx dy rng, movePiece gs dx dy rng = (None, rng)
     ∧ dispatch (movePiece gs dx dy rng).1 gs = gs)
  ∧ (rotate gs = None ∧ dispatch (rotate gs) gs = gs)
  ∧ (∀ fuel rng, hardDrop fuel gs rng = Some (None, rng)
       ∧ (∀ a rng', hardDrop fuel gs rng = Some (a, rng') → dispatch a gs = gs))
  ∧ (∀ fuel calls rng, CallTogglePause ∉ calls →
       performAll fuel (gs, rng) calls = Some (gs, rng)).
Proof.
  intros Hpaused Hover.
  assert (Hg : gs.(gameOver) || gs.(paused) = true) by (by rewrite Hover, Hpaused).
  split; [|split; [|split]].
  - intros dx dy rng. by rewrite movePiece_guarded.
  - by rewrite rotate_guarded.
  - intros fuel rng. rewrite hardDrop_guarded by done. split; [done|].
    intros a rng' [= <- _]. done.
  - intros fuel calls rng. induction calls as [|call rest IH]; [done|].
    intros [Hcall Hrest]%not_elem_of_cons.
    assert (Hone : perform fuel (gs, rng) call = Some (gs, rng)).
    { destruct call as [dx dy| | |]; unfold perform; cbn [fst snd].
      - by rewrite movePiece_guarded.
      - by rewrite rotate_guarded.
      - by rewrite hardDrop_guarded.
      - done. }
    simpl. rewrite Hone. by apply IH.
Qed.

(** C7. In a falling state, a move that does not go down ([dy ≤ 0]) to an
    invalid placement, and a rotation to an invalid placement, are no-ops:
    the handler returns without a [setGameState] call, so nothing is locked
    and the state is unchanged. The handlers are total functions: there is
    no exception to raise. *)
Theorem invalid_move_is_noop (gs : GameState) (current : Tetromino) :
  gs.(gameOver) = false → gs.(paused) = false →
  gs.(currentPiece) = Some current →
  (∀ dx dy rng, dy ≤ 0 →
     isValidMove gs.(board) (shiftPiece current dx dy) 0 0 = false →
     movePiece gs dx dy rng = (None, rng)
     ∧ dispatch (movePiece gs dx dy rng).1 gs = gs)
  ∧ (isValidMove gs.(board) (rotateTetromino current) 0 0 = false →
     rotate gs = None ∧ dispatch (rotate gs) gs = gs).
Proof.
  intros Hover Hpaused Hcur. split.
  - intros dx dy rng Hdy Hinvalid.
    assert (Hmove : movePiece gs dx dy rng = (None, rng)).
    { unfold movePiece. rewrite Hover, Hpaused, Hcur. simpl.
      rewrite Hinvalid. by destruct (Z.ltb_spec 0 dy); [lia|]. }
    by rewrite Hmove.
  - intros Hinvalid.
    assert (Hrot : rotate gs = None).
    { unfold rotate. rewrite Hover, Hpaused, Hcur. simpl. by rewrite Hinvalid. }
    by rewrite Hrot.
Qed.

(** ** Locking *)

Lemma movePiece_lock (gs : GameState) (current : Tetromino) (dx dy : Z) (rng : Rng) :
  gs.(gameOver) = false → gs.(paused) = false →
  gs.(currentPiece) = Some current → 0 < dy →
  isValidMove gs.(board) (shiftPiece current dx dy) 0 0 = false →
  movePiece gs dx dy rng =
    let cleared := clearLines (mergePieceToBoard gs.(board) current) in
    let spawn := nextOrCreate gs.(nextPiece) rng in
    if isValidMove cleared.1 spawn.1 0 0 then
      (Some (SetValue {|
         board := cleared.1;
         currentPiece := Some spawn.1;
         nextPiece := Some (createTetromino spawn.2).1;
         score := gs.(score) + calculateScore cleared.2 gs.(level);
         level := calculateLevel (gs.(lines) + cleared.2);
         lines := gs.(lines) + cleared.2;
         gameOver := false;
         paused := false |}), (createTetromino spawn.2).2)
    else
      (Some (SetUpdater (λ prev, {|
         board := cleared.1;
         currentPiece := prev.(currentPiece);
         nextPiece := prev.(nextPiece);
         score := prev.(score);
         level := prev.(level);
         lines := prev.(lines);
         gameOver := true;
         paused := prev.(paused) |})), spawn.2).
Proof.
  intros Hover Hpaused Hcur Hdy Hinvalid.
  unfold movePiece. rewrite Hover, Hpaused, Hcur. cbn [orb]. rewrite Hinvalid.
  destruct (Z.ltb_spec 0 dy) as [_|?]; [|lia]. cbv zeta.
  destruct (clearLines (mergePieceToBoard gs.(board) current))
    as [clearedBoard linesCleared].
  destruct (nextOrCreate gs.(nextPiece) rng) as [next rng1]. cbn [fst snd].
  destruct (isValidMove clearedBoard next 0 0); cbn [negb]; [|done].
  by destruct (createTetromino rng1).
Qed.

(** The branch that ends the game stores the cleared grid and the flag,
    and nothing else: the counters keep the values they had. *)
Lemma movePiece_lock_without_room
    (gs : GameState) (current : Tetromino) (dx dy : Z) (rng : Rng) :
  gs.(gameOver) = false → gs.(paused) = false →
  gs.(currentPiece) = Some current → 0 < dy →
  isValidMove gs.(board) (shiftPiece current dx dy) 0 0 = false →
  isValidMove (clearLines (mergePieceToBoard gs.(board) current)).1
              (nextOrCreate gs.(nextPiece) rng).1 0 0 = false →
  dispatch (movePiece gs dx dy rng).1 gs =
    {| board := (clearLines (mergePieceToBoard gs.(board) current)).1;
       currentPiece := Some current;
       nextPiece := gs.(nextPiece);
       score := gs.(score);
       level := gs.(level);
       lines := gs.(lines);
       gameOver := true;
       paused := false |}.
Proof.
  intros Hover Hpaused Hcur Hdy Hinvalid Hroom.
  rewrite (movePiece_lock gs current) by done. cbv zeta.
  rewrite Hroom. cbn [fst dispatch]. by rewrite Hcur, Hpaused.
Qed.

(** C1, amended. In a state that is not over, not paused and has an active
    piece, a downward move ([dy > 0]) to an invalid placement locks the
    piece, provided the piece to spawn fits on the cleared grid: the grid
    becomes [clearLines] of the grid merged with the active piece at its
    position, the line counter grows by [linesCleared], the score by
    [calculateScore linesCleared level], the level is recomputed from the
    new line total, the queued piece becomes the active one and a newly
    generated piece is queued. *)
Theorem lock_with_room_spawns_next
    (gs : GameState) (current : Tetromino) (dx dy : Z) (rng : Rng) :
  gs.(gameOver) = false → gs.(paused) = false →
  gs.(currentPiece) = Some current → 0 < dy →
  isValidMove gs.(board) (shiftPiece current dx dy) 0 0 = false →
  isValidMove (clearLines (mergePieceToBoard gs.(board) current)).1
              (nextOrCreate gs.(nextPiece) rng).1 0 0 = true →
  lockOutcome BOARD_WIDTH calculateScore calculateLevel Rng createTetromino
    gs current rng (dispatch (movePiece gs dx dy rng).1 gs)
  ∧ (∀ queued, gs.(nextPiece) = Some queued →
       (dispatch (movePiece gs dx dy rng).1 gs).(currentPiece) = Some queued
       ∧ (dispatch (movePiece gs dx dy rng).1 gs).(nextPiece)
         = Some (createTetromino rng).1)
  ∧ (dispatch (movePiece gs dx dy rng).1 gs).(gameOver) = false.
Proof.
  intros Hover Hpaused Hcur Hdy Hinvalid Hroom.
  rewrite (movePiece_lock gs current) by done. cbv zeta.
  rewrite Hroom. cbn [fst dispatch]. split; [|split; [|done]].
  - unfold lockOutcome. cbn [board lines score level currentPiece nextPiece]. done.
  - intros queued Hq. rewrite Hq. done.
Qed.

(** C10. A lock event that does not end the game adds
    [calculateScore linesCleared L] to the score, [L] being the level of
    the state before the lock; the new level is [calculateLevel] of the new
    line total and plays no part in the score of this event. *)
Theorem lock_scores_at_old_level
    (gs : GameState) (current : Tetromino) (dx dy : Z) (rng : Rng) :
  gs.(gameOver) = false → gs.(paused) = false →
  gs.(currentPiece) = Some current → 0 < dy →
  isValidMove gs.(board) (shiftPiece current dx dy) 0 0 = false →
  isValidMove (clearLines (mergePieceToBoard gs.(board) current)).1
              (nextOrCreate gs.(nextPiece) rng).1 0 0 = true →
  (dispatch (movePiece gs dx dy rng).1 gs).(score)
    = gs.(score)
      + calculateScore (clearLines (mergePieceToBoard gs.(board) current)).2 gs.(level)
  ∧ (dispatch (movePiece gs dx dy rng).1 gs).(lines)
    = gs.(lines) + (clearLines (mergePieceToBoard gs.(board) current)).2
  ∧ (dispatch (movePiece gs dx dy rng).1 gs).(level)
    = calculateLevel
        (gs.(lines) + (clearLines (mergePieceToBoard gs.(board) current)).2).
Proof.
  intros Hover Hpaused Hcur Hdy Hinvalid Hroom.
  rewrite (movePiece_lock gs current) by done. cbv zeta.
  by rewrite Hroom.
Qed.

(** ** Moving and dropping *)

Lemma isValidMove_shiftPiece (b : Board) (piece : Tetromino) (dx dy : Z) :
  isValidMove b (shiftPiece piece dx dy) 0 0 = isValidMove b piece dx dy.
Proof.
  unfold isValidMove. cbn [shiftPiece shape position x y].
  induction (shapeCells piece.(shape)) as [|rc cells IH]; [done|].
  cbn [forallb]. rewrite IH. do 2 f_equal; lia.
Qed.

Lemma shiftPiece_zero (piece : Tetromino) : shiftPiece piece 0 0 = piece.
Proof.
  destruct piece as [? ? [px py] ?]. unfold shiftPiece. cbn.
  by rewrite !Z.add_0_r.
Qed.

(** A valid placement keeps every occupied cell above the floor. *)
Lemma isValidMove_above_floor
    (b : Board) (piece : Tetromino) (offsetX offsetY : Z) (r c : nat) :
  occupied piece.(shape) r c →
  isValidMove b piece offsetX offsetY = true →
  piece.(position).(y) + Z.of_nat r + offsetY < BOARD_HEIGHT.
Proof.
  intros Hocc Hvalid.
  pose proof (proj1 (isValidMove_true b piece offsetX offsetY) Hvalid r c Hocc) as Hfree.
  apply cellFree_true in Hfree. lia.
Qed.

(** The loop of [hardDrop] leaves with the first distance whose successor
    is not a valid shift, as soon as the fuel covers the rows between the
    piece's origin and the floor. *)
Lemma dropLoop_stops (b : Board) (piece : Tetromino) (r c : nat) :
  occupied piece.(shape) r c →
  ∀ (fuel : nat) (start : Z),
    (Z.to_nat (BOARD_HEIGHT - piece.(position).(y) - start) < fuel)%nat →
    ∃ d, dropLoop fuel b piece start = Some d
      ∧ start ≤ d
      ∧ (∀ i, start < i ≤ d → isValidMove b piece 0 i = true)
      ∧ isValidMove b piece 0 (d + 1) = false.
Proof.
  intros Hocc fuel. induction fuel as [|fuel IH]; intros start Hfuel; [lia|].
  simpl.
  destruct (isValidMove b piece 0 (start + 1)) eqn:Hnext.
  - pose proof (isValidMove_above_floor b piece 0 (start + 1) r c Hocc Hnext).
    destruct (IH (start + 1)) as (d & Hloop & Hle & Hvalid & Hstop); [lia|].
    exists d. repeat split; [done|lia| |done].
    intros i Hi. destruct (decide (i = start + 1)) as [->|]; [done|].
    apply Hvalid. lia.
  - exists start. repeat split; [lia| |done]. intros i Hi. lia.
Qed.

(** C8. In a state that is not over, not paused and has an active piece,
    [hardDrop] moves the piece down by [d], the greatest distance it can
    fall: the shifts by [1 .. d] are all valid, the shift by [d + 1] is
    not, and so no greater distance is reached through valid shifts. The
    one [setGameState] call it makes replaces the active piece and nothing
    else, so the piece is not merged into the grid by this call; when
    [d = 0] it makes no call at all. The piece is taken to occupy a cell,
    which is what lets the loop meet the floor. *)
Theorem hardDrop_falls_without_locking
    (gs : GameState) (current : Tetromino) (rng : Rng) :
  gs.(gameOver) = false → gs.(paused) = false →
  gs.(currentPiece) = Some current →
  (∃ r c, occupied current.(shape) r c) →
  ∃ d, 0 ≤ d
    ∧ (∀ i, 0 < i ≤ d → isValidMove gs.(board) current 0 i = true)
    ∧ isValidMove gs.(board) current 0 (d + 1) = false
    ∧ (∀ d', (∀ i, 0 < i ≤ d' → isValidMove gs.(board) current 0 i = true) → d' ≤ d)
    ∧ ∀ fuel, (Z.to_nat (BOARD_HEIGHT - current.(position).(y)) < fuel)%nat →
        ∃ a, hardDrop fuel gs rng = Some (a, rng)
          ∧ (d = 0 → a = None)
          ∧ (∀ prev, 0 < d → dispatch a prev =
               {| board := prev.(board);
                  currentPiece := Some (shiftPiece current 0 d);
                  nextPiece := prev.(nextPiece);
                  score := prev.(score);
                  level := prev.(level);
                  lines := prev.(lines);
                  gameOver := prev.(gameOver);
                  paused := prev.(paused) |})
          ∧ dispatch a gs =
               {| board := gs.(board);
                  currentPiece := Some (shiftPiece current 0 d);
                  nextPiece := gs.(nextPiece);
                  score := gs.(score);
                  level := gs.(level);
                  lines := gs.(lines);
                  gameOver := gs.(gameOver);
                  paused := gs.(paused) |}.
Proof.
  intros Hover Hpaused Hcur (r & c & Hocc).
  destruct (dropLoop_stops gs.(board) current r c Hocc
              (S (Z.to_nat (BOARD_HEIGHT - current.(position).(y)))) 0)
    as (d & _ & Hle & Hvalid & Hstop); [rewrite Z.sub_0_r; lia|].
  exists d. split; [done|]. split; [done|]. split; [done|]. split.
  { intros d' Hfall. destruct (Z.le_gt_cases d' d) as [?|Hgt]; [done|].
    rewrite Hfall in Hstop by lia. done. }
  intros fuel Hfuel.
  destruct (dropLoop_stops gs.(board) current r c Hocc fuel 0)
    as (d' & Hloop & Hle' & Hvalid' & Hstop'); [rewrite Z.sub_0_r; lia|].
  assert (d' = d) as ->.
  { destruct (Z.lt_trichotomy d' d) as [?|[?|?]]; [|done|].
    - rewrite Hvalid in Hstop' by lia. done.
    - rewrite Hvalid' in Hstop by lia. done. }
  unfold hardDrop. rewrite Hover, Hpaused, Hcur. cbn [orb]. rewrite Hloop.
  cbn [mbind option_bind].
  destruct (Z.ltb_spec 0 d) as [Hpos|Hzero].
  - assert (Hmove : isValidMove gs.(board) (shiftPiece current 0 d) 0 0 = true).
    { rewrite isValidMove_shiftPiece. apply Hvalid. lia. }
    unfold movePiece. rewrite Hover, Hpaused, Hcur. cbn [orb]. rewrite Hmove.
    eexists. split; [done|]. split; [lia|]. split; [done|].
    cbn [dispatch]. by rewrite Hover, Hpaused.
  - assert (d = 0) as -> by lia.
    exists None. split; [done|]. split; [done|]. split; [lia|].
    cbn [dispatch]. rewrite shiftPiece_zero. destruct gs; simpl in *; by subst.
Qed.

End EngineFacts.

(** ** The component on the sample states *)

Section SampleRuns.

Import Sample.

Abbreviation movePiece :=
  (movePiece WIDTH HEIGHT calculateScore calculateLevel nat createTetromino).
Abbreviation rotate := (rotate WIDTH HEIGHT rotateTetromino).
Abbreviation hardDrop :=
  (hardDrop WIDTH HEIGHT calculateScore calculateLevel nat createTetromino).
Abbreviation lockOutcome :=
  (lockOutcome WIDTH calculateScore calculateLevel nat createTetromino).

(** C1 as stated fails where the lock ends the game. In [stacked] the
    square cannot go down and locks; it completes row 1, and on the cleared
    grid the queued tee has no room. The state that results keeps the
    square as its active piece and the tee in the queue, and its counters
    are the old ones: it is not the outcome C1 describes. *)
Lemma lock_at_full_stack_spawns_nothing :
  stacked.(gameOver) = false
  ∧ stacked.(paused) = false
  ∧ stacked.(currentPiece) = Some (square 4 0)
  ∧ isValidMove WIDTH HEIGHT stacked.(board) (shiftPiece (square 4 0) 0 1) 0 0 = false
  ∧ (dispatch (movePiece stacked 0 1 0%nat).1 stacked).(currentPiece)
    ≠ stacked.(nextPiece)
  ∧ ¬ lockOutcome stacked (square 4 0) 0%nat
        (dispatch (movePiece stacked 0 1 0%nat).1 stacked).
Proof.
  split; [reflexivity|]. split; [reflexivity|]. split; [reflexivity|].
  split; [reflexivity|]. split.
  - vm_compute. discriminate.
  - intros (_ & _ & _ & _ & Hactive & _). vm_compute in Hactive. discriminate.
Qed.

(** The lock of [nearlyCleared]: the bottom row clears and the queued
    square becomes the active piece. *)
Lemma lock_with_room_spawns_next_witness :
  isValidMove WIDTH HEIGHT nearlyCleared.(board) (shiftPiece (square 4 18) 0 1) 0 0 = false
  ∧ lockOutcome nearlyCleared (square 4 18) 0%nat
      (dispatch (movePiece nearlyCleared 0 1 0%nat).1 nearlyCleared)
  ∧ (dispatch (movePiece nearlyCleared 0 1 0%nat).1 nearlyCleared).(currentPiece)
    = Some (square 4 0).
Proof.
  split; [reflexivity|].
  destruct (lock_with_room_spawns_next WIDTH HEIGHT calculateScore calculateLevel
              nat createTetromino nearlyCleared (square 4 18) 0 1 0%nat)
    as (Houtcome & Hqueued & _);
    [reflexivity | reflexivity | reflexivity | lia | reflexivity | reflexivity |].
  split; [exact Houtcome|]. exact (proj1 (Hqueued (square 4 0) eq_refl)).
Defined.

(** [opening] with the pause toggled on: a move, a rotation and a hard
    drop do nothing. *)
Lemma paused_accepts_no_move_witness :
  let held := dispatch (togglePause opening) opening in
  held.(paused) = true
  ∧ movePiece held 0 1 0%nat = (None, 0%nat)
  ∧ rotate held = None
  ∧ hardDrop 30 held 0%nat = Some (None, 0%nat).
Proof.
  split; [reflexivity|].
  destruct (paused_accepts_no_move WIDTH HEIGHT calculateScore calculateLevel
              rotateTetromino nat createTetromino
              (dispatch (togglePause opening) opening))
    as (Hmove & Hrot & Hdrop & _); [reflexivity | reflexivity |].
  split; [exact (proj1 (Hmove 0 1 0%nat))|].
  split; [exact (proj1 Hrot) | exact (proj1 (Hdrop 30%nat 0%nat))].
Defined.

(** The bar in the corner: a step to the left and a quarter turn are both
    invalid, and both leave the state as it is. *)
Lemma invalid_move_is_noop_witness :
  isValidMove WIDTH HEIGHT cornered.(board) (shiftPiece (bar 0 19) (-1) 0) 0 0 = false
  ∧ isValidMove WIDTH HEIGHT cornered.(board) (rotateTetromino (bar 0 19)) 0 0 = false
  ∧ dispatch (movePiece cornered (-1) 0 0%nat).1 cornered = cornered
  ∧ dispatch (rotate cornered) cornered = cornered.
Proof.
  split; [reflexivity|]. split; [reflexivity|].
  destruct (invalid_move_is_noop WIDTH HEIGHT calculateScore calculateLevel
              rotateTetromino nat createTetromino cornered (bar 0 19))
    as (Hmove & Hrot); [reflexivity | reflexivity | reflexivity |].
  split.
  - apply (Hmove (-1) 0 0%nat); [lia | reflexivity].
  - apply Hrot. reflexivity.
Defined.

(** The square dropped on the empty grid: it moves, and the grid stays
    empty. *)
Lemma hardDrop_falls_without_locking_witness :
  ∃ d, isValidMove WIDTH HEIGHT opening.(board) (square 4 0) 0 (d + 1) = false
    ∧ ∃ a, hardDrop 30 opening 0%nat = Some (a, 0%nat)
        ∧ (dispatch a opening).(board) = opening.(board)
        ∧ (dispatch a opening).(currentPiece) = Some (shiftPiece (square 4 0) 0 d).
Proof.
  destruct (hardDrop_falls_without_locking WIDTH HEIGHT calculateScore
              calculateLevel nat createTetromino opening (square 4 0) 0%nat)
    as (d & _ & _ & Hstop & _ & Hdrop);
    [reflexivity | reflexivity | reflexivity | |].
  { exists 0%nat, 0%nat, [1; 1], 1. split; [reflexivity|]. split; [reflexivity|lia]. }
  exists d. split; [exact Hstop|].
  destruct (Hdrop 30%nat) as (a & Hrun & _ & _ & Hstate); [vm_compute; lia|].
  exists a. split; [exact Hrun|]. rewrite Hstate. split; reflexivity.
Defined.

(** The tenth line is cleared at level 0 and scored at level 0; the level
    after the lock is 1. *)
Lemma lock_scores_at_old_level_witness :
  nearlyCleared.(level) = 0
  ∧ (clearLines WIDTH (mergePieceToBoard nearlyCleared.(board) (square 4 18))).2 = 1
  ∧ (dispatch (movePiece nearlyCleared 0 1 0%nat).1 nearlyCleared).(level) = 1
  ∧ (dispatch (movePiece nearlyCleared 0 1 0%nat).1 nearlyCleared).(score)
    = nearlyCleared.(score) + calculateScore 1 0.
Proof.
  split; [reflexivity|]. split; [reflexivity|].
  destruct (lock_scores_at_old_level WIDTH HEIGHT calculateScore calculateLevel
              nat createTetromino nearlyCleared (square 4 18) 0 1 0%nat)
    as (Hscore & _ & Hlevel);
    [reflexivity | reflexivity | reflexivity | lia | reflexivity | reflexivity |].
  split; [rewrite Hlevel; reflexivity | rewrite Hscore; reflexivity].
Defined.

End SampleRuns.

(** C2, on the code. The lock of [stacked] clears one line and ends the
    game: the state it leaves has the cleared grid and the flag, and the
    score, the level and the line counter it started with, whatever the
    reward table and the level rule are. *)
Theorem lock_at_full_stack_keeps_counters
    (calculateScore : Z → Z → Z) (calculateLevel : Z → Z)
    (Rng : Type) (createTetromino : Rng → Tetromino * Rng) (rng : Rng) :
  (clearLines Sample.WIDTH
     (mergePieceToBoard Sample.stacked.(board) (Sample.square 4 0))).2 = 1
  ∧ dispatch
      (movePiece Sample.WIDTH Sample.HEIGHT calculateScore calculateLevel
         Rng createTetromino Sample.stacked 0 1 rng).1 Sample.stacked
    = {| board := (clearLines Sample.WIDTH
                     (mergePieceToBoard Sample.stacked.(board) (Sample.square 4 0))).1;
         currentPiece := Some (Sample.square 4 0);
         nextPiece := Some (Sample.tee 3 0);
         score := 500;
         level := 0;
         lines := 7;
         gameOver := true;
         paused := false |}.
Proof.
  split; [reflexivity|].
  by rewrite (movePiece_lock_without_room Sample.WIDTH Sample.HEIGHT
                calculateScore calculateLevel Rng createTetromino
                Sample.stacked (Sample.square 4 0)).
Qed.

(** ** Handlers of a render that the state has left behind *)

Section StaleRender.

Variable calculateScore : Z -> Z -> Z.
Variable calculateLevel : Z -> Z.
Variable rotateTetromino : Tetromino -> Tetromino.
Variable Rng : Type.
Variable createTetromino : Rng -> Tetromino * Rng.

Abbreviation step :=
  (step Sample.WIDTH Sample.HEIGHT calculateScore calculateLevel rotateTetromino
     Rng createTetromino).
Abbreviation run :=
  (run Sample.WIDTH Sample.HEIGHT calculateScore calculateLevel rotateTetromino
     Rng createTetromino).

(** Once a render has seen the flag, the loop and the listener it installs
    queue nothing. *)
Lemma finished_render_ignores_events (fuel : nat) (c : Component) (rng : Rng) :
  c.(rendered).(gameOver) = true →
  step fuel (c, rng) Frame = Some (c, rng)
  ∧ ∀ key, step fuel (c, rng) (KeyDown key) = Some (c, rng).
Proof.
  intros Hover. split.
  - unfold step, gameLoop. cbn [fst snd]. by rewrite Hover.
  - intros key. unfold step, handleKeyDown. cbn [fst snd]. by rewrite Hover.
Qed.

(** C5, on the code. The component has rendered [stacked]. A frame of the
    game loop drops the square: it locks, and the update that ends the game
    is queued. Rendered next, the state is over and not paused. If the key
    [p] is pressed before that render, the listener is still the one of the
    render of [stacked]: its guards read [gameOver = false], and the
    updater that [togglePause] queues runs on the state the lock has left.
    The state rendered next is over and paused: the pause flag has been
    toggled in a game that is over. Pressed after the render, the key does
    nothing. *)
Theorem pause_toggles_after_game_over (fuel : nat) (rng : Rng) :
  run fuel ({| rendered := Sample.stacked; queued := [] |}, rng) [Frame; Render]
  = Some ({| rendered := Sample.stackedOver false; queued := [] |}, rng)
  ∧ run fuel ({| rendered := Sample.stacked; queued := [] |}, rng)
      [Frame; KeyDown "p"; Render]
    = Some ({| rendered := Sample.stackedOver true; queued := [] |}, rng)
  ∧ run fuel ({| rendered := Sample.stacked; queued := [] |}, rng)
      [Frame; Render; KeyDown "p"; Render]
    = Some ({| rendered := Sample.stackedOver false; queued := [] |}, rng).
Proof.
  split; [reflexivity|]. split; reflexivity.
Qed.

End StaleRender.

(** ** Rendering *)

Lemma copyRows_extends (rows : list nat) (h : gmap nat (list Slot)) :
  h ⊆ (copyRows h rows).1.
Proof.
  revert h. induction rows as [|l rest IH]; intros h; [done|].
  simpl. destruct (h !! l) as [cells|]; [|done].
  specialize (IH (<[fresh (dom h) := cells]> h)).
  destruct (copyRows _ rest) as [h' copies]. simpl in *.
  etrans; [|exact IH].
  apply insert_subseteq, not_elem_of_dom, is_fresh.
Qed.

(** The copies are new arrays, one per row and all different, and each
    holds what its row holds. *)
Lemma copyRows_copies (rows : list nat) :
  ∀ (h : gmap nat (list Slot)) (display : list nat),
    (copyRows h rows).2 = Some display →
    length display = length rows
    ∧ NoDup display
    ∧ (∀ l, l ∈ display → h !! l = None)
    ∧ Forall2 (λ l l', ∃ cells, (copyRows h rows).1 !! l = Some cells
                               ∧ (copyRows h rows).1 !! l' = Some cells)
        rows display.
Proof.
  induction rows as [|l rest IH]; intros h display.
  { simpl. intros [= <-]. repeat split; [constructor|set_solver|constructor]. }
  simpl. destruct (h !! l) as [cells|] eqn:Hl; [|done].
  pose proof (is_fresh (dom h)) as Hfresh. apply not_elem_of_dom in Hfresh.
  set (l' := fresh (dom h)) in *.
  pose proof (copyRows_extends rest (<[l' := cells]> h)) as Hext.
  specialize (IH (<[l' := cells]> h)).
  destruct (copyRows (<[l' := cells]> h) rest) as [h' copies]. simpl in *.
  destruct copies as [copies|]; [|done]. simpl. intros [= <-].
  destruct (IH copies eq_refl) as (Hlen & Hnodup & Hnew & Hsame).
  assert (Hl' : h' !! l' = Some cells).
  { eapply lookup_weaken; [|exact Hext]. apply lookup_insert_eq. }
  repeat split.
  - simpl. by rewrite Hlen.
  - apply NoDup_cons. split; [|done]. intros Hin.
    apply Hnew in Hin. by rewrite lookup_insert_eq in Hin.
  - intros k [->|Hin]%elem_of_cons; [done|].
    apply Hnew in Hin. apply lookup_insert_None in Hin. tauto.
  - constructor; [|done]. exists cells. split; [|done].
    eapply lookup_weaken; [|exact Hext].
    rewrite lookup_insert_ne; [done|]. intros ->. congruence.
Qed.

Lemma copyRows_allocated (rows : list nat) :
  ∀ h : gmap nat (list Slot),
    Forall (λ l, is_Some (h !! l)) rows → is_Some (copyRows h rows).2.
Proof.
  induction rows as [|l rest IH]; intros h Hrows; [by eexists|].
  apply Forall_cons in Hrows as [[cells Hl] Hrest].
  simpl. rewrite Hl.
  pose proof (is_fresh (dom h)) as Hfresh. apply not_elem_of_dom in Hfresh.
  specialize (IH (<[fresh (dom h) := cells]> h)).
  destruct (copyRows _ rest) as [h' copies]. simpl in *.
  destruct IH as [display ->]; [|by eexists].
  eapply Forall_impl; [exact Hrest|]. intros k [row Hk]. exists row.
  eapply lookup_weaken; [exact Hk|]. by apply insert_subseteq.
Qed.

Lemma represents_allocated (h : gmap nat (list Slot)) (rows : list nat)
    (b : list (list (option string))) :
  represents h rows b → Forall (λ l, is_Some (h !! l)) rows.
Proof.
  unfold represents. induction 1 as [|l row rows b Hl _ IH]; constructor; eauto.
Qed.

Section RenderFacts.

Variable BOARD_WIDTH BOARD_HEIGHT : Z.

Abbreviation overlay := (overlay BOARD_WIDTH BOARD_HEIGHT).
Abbreviation displayBoard := (displayBoard BOARD_WIDTH BOARD_HEIGHT).

(** The loops assign into rows of [displayBoard] only. *)
Lemma overlay_frame (piece : Tetromino) (display : list nat) (cells : list (nat * nat)) :
  ∀ (h : gmap nat (list Slot)) (l : nat),
    l ∉ display → (overlay piece display cells h).1 !! l = h !! l.
Proof.
  induction cells as [|rc rest IH]; intros h l Hl; [done|].
  simpl. destruct (_ && _); [|by apply IH].
  destruct (display !! _) as [l0|] eqn:Hrow; [|done].
  destruct (h !! l0) as [row|]; [|done].
  rewrite IH by done. apply lookup_insert_ne. intros ->.
  apply Hl. by eapply list_elem_of_lookup_2.
Qed.

Lemma paints_shapeCells (piece : Tetromino) (i j : nat) :
  paints piece (shapeCells piece.(shape)) i j ↔ covers piece i j.
Proof.
  unfold paints, covers. rewrite Exists_exists. split.
  - intros ([r c] & Hin & Hy & Hx). exists r, c.
    by apply elem_of_shapeCells in Hin.
  - intros (r & c & Hocc & Hy & Hx). exists (r, c).
    by apply elem_of_shapeCells in Hocc.
Qed.

(** On a grid of [BOARD_HEIGHT] rows of [BOARD_WIDTH] cells the loops run
    to their end, every assignment replaces a cell, and a cell of the
    display ends up with the piece's color when a cell of the piece lies
    over it and as it was otherwise. *)
Lemma overlay_grid (piece : Tetromino) (display : list nat) :
  NoDup display → length display = Z.to_nat BOARD_HEIGHT →
  ∀ (cells : list (nat * nat)) (h : gmap nat (list Slot)),
    (∀ l, l ∈ display → ∃ row, h !! l = Some row ∧ length row = Z.to_nat BOARD_WIDTH) →
    (overlay piece display cells h).2 = true
    ∧ ∀ i l row, display !! i = Some l → h !! l = Some row →
        ∃ shown, (overlay piece display cells h).1 !! l = Some shown
          ∧ length shown = length row
          ∧ ∀ j, (j < Z.to_nat BOARD_WIDTH)%nat →
              (paints piece cells i j → shown !! j = Some (Elem (Some piece.(color))))
              ∧ (¬ paints piece cells i j → shown !! j = row !! j).
Proof.
  intros Hnodup Hheight. induction cells as [|rc rest IH]; intros h Hrows.
  { split; [done|]. intros i l row _ Hl. exists row.
    split; [done|]. split; [done|]. intros j _. split; [|done].
    by intros ?%Exists_nil. }
  simpl.
  set (boardY := piece.(position).(y) + Z.of_nat rc.1).
  set (boardX := piece.(position).(x) + Z.of_nat rc.2).
  destruct ((0 <=? boardY) && (boardY <? BOARD_HEIGHT)
            && (0 <=? boardX) && (boardX <? BOARD_WIDTH)) eqn:Hin.
  - apply andb_true_iff in Hin as [[[Hy0 Hy1]%andb_true_iff Hx0]%andb_true_iff Hx1].
    apply Z.leb_le in Hy0, Hx0. apply Z.ltb_lt in Hy1, Hx1.
    destruct (lookup_lt_is_Some_2 display (Z.to_nat boardY)) as [l0 Hl0]; [lia|].
    rewrite Hl0.
    destruct (Hrows l0) as (row0 & Hrow0 & Hlen0); [by eapply list_elem_of_lookup_2|].
    rewrite Hrow0.
    assert (Hset : arraySet row0 (Z.to_nat boardX) (Elem (Some piece.(color)))
                   = <[Z.to_nat boardX := Elem (Some piece.(color))]> row0).
    { unfold arraySet. rewrite decide_True; [done|lia]. }
    rewrite Hset.
    set (h1 := <[l0 := <[Z.to_nat boardX := Elem (Some piece.(color))]> row0]> h).
    destruct (IH h1) as [Hok Hcells].
    { intros l Hl. unfold h1. destruct (decide (l = l0)) as [->|Hne].
      - rewrite lookup_insert_eq. eexists. split; [done|]. by rewrite length_insert.
      - rewrite lookup_insert_ne by done. by apply Hrows. }
    split; [done|]. intros i l row Hi Hl.
    destruct (decide (l = l0)) as [->|Hne].
    + assert (i = Z.to_nat boardY) as -> by (by eapply NoDup_lookup).
      assert (row = row0) as -> by congruence.
      destruct (Hcells (Z.to_nat boardY) l0
                  (<[Z.to_nat boardX := Elem (Some piece.(color))]> row0))
        as (shown & Hshown & Hlen & Hcell); [done|by apply lookup_insert_eq|].
      exists shown. split; [done|]. split; [by rewrite Hlen, length_insert|].
      intros j Hj. destruct (Hcell j Hj) as [Hpainted Hplain].
      destruct (decide (paints piece rest (Z.to_nat boardY) j)) as [Hrest|Hrest].
      * split; [by intros _; apply Hpainted|].
        intros Hno. exfalso. apply Hno. by apply Exists_cons_tl.
      * rewrite (Hplain Hrest). split.
        -- intros [[_ Hx]|?]%Exists_cons; [|done].
           assert (j = Z.to_nat boardX) as -> by (unfold boardX; lia).
           apply list_lookup_insert_eq. lia.
        -- intros Hno. apply list_lookup_insert_ne. intros <-.
           apply Hno, Exists_cons_hd. unfold boardY, boardX in *. lia.
    + destruct (Hcells i l row) as (shown & Hshown & Hlen & Hcell);
        [done|by unfold h1; rewrite lookup_insert_ne|].
      exists shown. split; [done|]. split; [done|].
      intros j Hj. destruct (Hcell j Hj) as [Hpainted Hplain]. split.
      * intros [[Hy _]|?]%Exists_cons; [|by apply Hpainted].
        exfalso. apply Hne.
        assert (i = Z.to_nat boardY) as -> by (unfold boardY; lia). congruence.
      * intros Hno. apply Hplain. intros ?. by apply Hno, Exists_cons_tl.
  - destruct (IH h Hrows) as [Hok Hcells]. split; [done|].
    intros i l row Hi Hl.
    destruct (Hcells i l row Hi Hl) as (shown & Hshown & Hlen & Hcell).
    exists shown. split; [done|]. split; [done|].
    intros j Hj. destruct (Hcell j Hj) as [Hpainted Hplain]. split.
    + intros [[Hy Hx]|?]%Exists_cons; [|by apply Hpainted].
      apply lookup_lt_Some in Hi. exfalso.
      apply andb_false_iff in Hin as [[[Hb|Hb]%andb_false_iff|Hb]%andb_false_iff|Hb];
        [apply Z.leb_gt in Hb|apply Z.ltb_ge in Hb|apply Z.leb_gt in Hb|apply Z.ltb_ge in Hb];
        unfold boardY, boardX in *; lia.
    + intros Hno. apply Hplain. intros ?. by apply Hno, Exists_cons_tl.
Qed.

(** C9. Rendering reads the grid and does not write to it. Whatever the
    heap, the board and the piece, every array of the heap holds after
    [Board]'s display computation what it held before, so a grid laid out
    in the heap is still laid out there, unchanged. On a grid of
    [BOARD_HEIGHT] rows of [BOARD_WIDTH] cells the computation returns a
    display board of newly allocated rows, one per row of the grid, in
    which a cell holds the piece's color when an occupied cell of the piece
    lies over it (it is within the grid then) and the cell of the grid
    otherwise. *)
Theorem displayBoard_reads_only
    (h : gmap nat (list Slot)) (board : list nat) (currentPiece : option Tetromino) :
  (∀ l cells, h !! l = Some cells →
     (displayBoard h board currentPiece).1 !! l = Some cells)
  ∧ (∀ b, represents h board b →
       represents (displayBoard h board currentPiece).1 board b)
  ∧ (∀ b, represents h board b →
       length b = Z.to_nat BOARD_HEIGHT →
       Forall (λ row, length row = Z.to_nat BOARD_WIDTH) b →
       ∃ display, (displayBoard h board currentPiece).2 = Some display
         ∧ length display = length board
         ∧ NoDup display
         ∧ (∀ l, l ∈ display → h !! l = None)
         ∧ ∀ i row, b !! i = Some row →
             ∃ l shown, display !! i = Some l
               ∧ (displayBoard h board currentPiece).1 !! l = Some shown
               ∧ length shown = length row
               ∧ ∀ j, (j < Z.to_nat BOARD_WIDTH)%nat →
                   (∀ piece, currentPiece = Some piece → covers piece i j →
                      shown !! j = Some (Elem (Some piece.(color))))
                   ∧ ((∀ piece, currentPiece = Some piece → ¬ covers piece i j) →
                      shown !! j = Elem <$> row !! j)).
Proof.
  pose proof (copyRows_extends board h) as Hext.
  pose proof (copyRows_copies board h) as Hcopies.
  assert (Hframe : ∀ l cells, h !! l = Some cells →
            (displayBoard h board currentPiece).1 !! l = Some cells).
  { intros l cells Hl. unfold displayBoard.
    destruct (copyRows h board) as [h1 [display|]] eqn:Hcopy; simpl in *;
      [|by eapply lookup_weaken].
    destruct currentPiece as [piece|]; [|by eapply lookup_weaken].
    destruct (Hcopies display eq_refl) as (_ & _ & Hnew & _).
    pose proof (overlay_frame piece display (shapeCells piece.(shape)) h1 l) as Hov.
    destruct (overlay piece display _ h1) as [h2 ok]. simpl in *.
    rewrite Hov; [by eapply lookup_weaken|].
    intros Hin. apply Hnew in Hin. congruence. }
  split; [exact Hframe|]. split.
  { intros b Hrep. unfold represents in *.
    eapply Forall2_impl; [exact Hrep|]. intros l row Hl. by apply Hframe. }
  intros b Hrep Hheight Hwidth.
  destruct (copyRows_allocated board h (represents_allocated h board b Hrep))
    as [display Hdisplay].
  destruct (Hcopies display Hdisplay) as (Hlen & Hnodup & Hnew & Hsame).
  pose proof (Forall2_length _ _ _ Hrep) as Hlenb.
  assert (Hcopy : ∀ i row, b !! i = Some row →
            ∃ l, display !! i = Some l
              ∧ (copyRows h board).1 !! l = Some (Elem <$> row)).
  { intros i row Hi.
    destruct (Forall2_lookup_r _ _ _ _ _ Hrep Hi) as (l0 & Hl0 & Hrow).
    destruct (Forall2_lookup_l _ _ _ _ _ Hsame Hl0) as (l & Hl & cells & Hc0 & Hc).
    exists l. split; [done|].
    rewrite Hc, <- Hc0. eapply lookup_weaken; [exact Hrow|exact Hext]. }
  unfold displayBoard.
  destruct (copyRows h board) as [h1 copies] eqn:Hrun. simpl in *. subst copies.
  destruct currentPiece as [piece|]; simpl.
  - destruct (overlay_grid piece display Hnodup ltac:(lia)
                (shapeCells piece.(shape)) h1) as [Hok Hcells].
    { intros l Hl. apply list_elem_of_lookup_1 in Hl as [i Hi].
      destruct (lookup_lt_is_Some_2 b i) as [row Hrow].
      { apply lookup_lt_Some in Hi. lia. }
      destruct (Hcopy i row Hrow) as (l' & Hl' & Hheld).
      assert (l' = l) as -> by congruence.
      eexists. split; [done|]. rewrite length_fmap.
      by eapply (proj1 (Forall_lookup _ _) Hwidth). }
    destruct (overlay piece display _ h1) as [h2 ok]. simpl in *. subst ok.
    exists display. split; [done|]. split; [done|]. split; [done|]. split; [done|].
    intros i row Hi. destruct (Hcopy i row Hi) as (l & Hl & Hheld).
    destruct (Hcells i l _ Hl Hheld) as (shown & Hshown & Hshownlen & Hcell).
    exists l, shown. split; [done|]. split; [done|].
    split; [by rewrite Hshownlen, length_fmap|].
    intros j Hj. destruct (Hcell j Hj) as [Hpainted Hplain]. split.
    + intros p [= <-] Hcov. by apply Hpainted, paints_shapeCells.
    + intros Hno. rewrite Hplain, list_lookup_fmap; [done|].
      intros Hp%paints_shapeCells. by eapply Hno.
  - exists display. split; [done|]. split; [done|]. split; [done|]. split; [done|].
    intros i row Hi. destruct (Hcopy i row Hi) as (l & Hl & Hheld).
    exists l, (Elem <$> row). split; [done|]. split; [done|].
    split; [by rewrite length_fmap|].
    intros j _. split; [done|]. intros _. by rewrite list_lookup_fmap.
Qed.

End RenderFacts.

(** The renderer on the small grid, with a square that hangs over the
    right and the lower edge: one of its cells is within the grid. *)
Lemma displayBoard_reads_only_witness :
  represents Sample.smallHeap [0; 1]%nat Sample.smallGrid
  ∧ represents
      (displayBoard 3 2 Sample.smallHeap [0; 1]%nat (Some (Sample.square 2 1))).1
      [0; 1]%nat Sample.smallGrid
  ∧ ∃ display,
      (displayBoard 3 2 Sample.smallHeap [0; 1]%nat (Some (Sample.square 2 1))).2
        = Some display
      ∧ length display = 2%nat
      ∧ ∀ l, l ∈ display → Sample.smallHeap !! l = None.
Proof.
  assert (Hrep : represents Sample.smallHeap [0; 1]%nat Sample.smallGrid).
  { repeat constructor. }
  split; [exact Hrep|].
  destruct (displayBoard_reads_only 3 2 Sample.smallHeap [0; 1]%nat
              (Some (Sample.square 2 1))) as (_ & Hkept & Hshown).
  split; [exact (Hkept _ Hrep)|].
  destruct (Hshown Sample.smallGrid Hrep) as (display & Hrun & Hlen & _ & Hnew & _);
    [reflexivity | repeat constructor |].
  exists display. split; [exact Hrun|]. split; [exact Hlen | exact Hnew].
Defined.

(** * Further properties of the game component *)

Section ComponentFacts.

Variable BOARD_WIDTH BOARD_HEIGHT : Z.
Variable calculateScore : Z -> Z -> Z.
Variable calculateLevel : Z -> Z.
Variable rotateTetromino : Tetromino -> Tetromino.
Variable Rng : Type.
Variable createTetromino : Rng -> Tetromino * Rng.

Abbreviation isValidMove := (isValidMove BOARD_WIDTH BOARD_HEIGHT).
Abbreviation clearLines := (clearLines BOARD_WIDTH).
Abbreviation nextOrCreate := (nextOrCreate Rng createTetromino).
Abbreviation movePiece :=
  (movePiece BOARD_WIDTH BOARD_HEIGHT calculateScore calculateLevel Rng createTetromino).
Abbreviation rotate := (rotate BOARD_WIDTH BOARD_HEIGHT rotateTetromino).
Abbreviation hardDrop :=
  (hardDrop BOARD_WIDTH BOARD_HEIGHT calculateScore calculateLevel Rng createTetromino).
Abbreviation dropLoop := (dropLoop BOARD_WIDTH BOARD_HEIGHT).
Abbreviation perform :=
  (perform BOARD_WIDTH BOARD_HEIGHT calculateScore calculateLevel rotateTetromino
     Rng createTetromino).
Abbreviation performAll :=
  (performAll BOARD_WIDTH BOARD_HEIGHT calculateScore calculateLevel rotateTetromino
     Rng createTetromino).
Abbreviation handleKeyDown :=
  (handleKeyDown BOARD_WIDTH BOARD_HEIGHT calculateScore calculateLevel
     rotateTetromino Rng createTetromino).
Abbreviation pressKey :=
  (pressKey BOARD_WIDTH BOARD_HEIGHT calculateScore calculateLevel
     rotateTetromino Rng createTetromino).
Abbreviation pressKeys :=
  (pressKeys BOARD_WIDTH BOARD_HEIGHT calculateScore calculateLevel
     rotateTetromino Rng createTetromino).
Abbreviation wellPlaced := (wellPlaced BOARD_WIDTH BOARD_HEIGHT).
Abbreviation levelMatches := (levelMatches calculateLevel).

(** Walks the paths of [movePiece gs dx dy rng]: the guard, the missing
    piece, the valid move, the spawn after a lock, the end of the game, and
    the refused move. *)
Ltac movePiece_paths gs dx dy rng :=
  unfold movePiece;
  destruct (gs.(gameOver) || gs.(paused)) eqn:?;
    [|destruct gs.(currentPiece) as [?current|] eqn:?;
      [match goal with
       | |- context [shiftPiece ?cur dx dy] =>
         destruct (isValidMove gs.(board) (shiftPiece cur dx dy) 0 0) eqn:?;
           [|destruct (Z.ltb_spec 0 dy);
             [cbv zeta;
              destruct (clearLines (mergePieceToBoard gs.(board) cur))
                as [?clearedBoard ?linesCleared];
              destruct (nextOrCreate gs.(nextPiece) rng) as [?next ?rng1];
              match goal with
              | |- context [negb (isValidMove ?cb ?nx 0 0)] =>
                destruct (isValidMove cb nx 0 0) eqn:?; cbn [negb];
                  [destruct (createTetromino rng1) as [?created ?rng2]|]
              end|]]
       end|]].

(** ** The active piece stays a valid placement *)

Lemma movePiece_wellPlaced (gs : GameState) (dx dy : Z) (rng : Rng) :
  wellPlaced gs →
  (dispatch (movePiece gs dx dy rng).1 gs).(gameOver) = false →
  wellPlaced (dispatch (movePiece gs dx dy rng).1 gs).
Proof.
  intros Hwell. movePiece_paths gs dx dy rng; cbn [fst dispatch]; try done.
  - intros _ p [= <-]. done.
  - intros _ p [= <-]. done.
Qed.

Lemma rotate_wellPlaced (gs : GameState) :
  wellPlaced gs → wellPlaced (dispatch (rotate gs) gs).
Proof.
  intros Hwell. unfold rotate.
  destruct (gs.(gameOver) || gs.(paused)); [done|].
  destruct gs.(currentPiece) as [current|]; [|done].
  destruct (isValidMove gs.(board) (rotateTetromino current) 0 0) eqn:Hvalid; [|done].
  intros p [= <-]. done.
Qed.

Lemma hardDrop_wellPlaced (fuel : nat) (gs : GameState) (rng : Rng)
    (a : option SetStateAction) (rng' : Rng) :
  wellPlaced gs → hardDrop fuel gs rng = Some (a, rng') →
  (dispatch a gs).(gameOver) = false → wellPlaced (dispatch a gs).
Proof.
  intros Hwell. unfold hardDrop.
  destruct (gs.(gameOver) || gs.(paused)); [by intros [= <- _]|].
  destruct gs.(currentPiece) as [current|] eqn:Hcur; [|by intros [= <- _]].
  destruct (dropLoop fuel gs.(board) current 0) as [d|]; [|done]. cbn [mbind option_bind].
  destruct (0 <? d); [|by intros [= <- _]].
  intros [= Hmove]. pose proof (movePiece_wellPlaced gs 0 d rng Hwell) as Hstep.
  rewrite Hmove in Hstep. exact Hstep.
Qed.

Lemma togglePause_wellPlaced (gs : GameState) :
  wellPlaced gs → wellPlaced (dispatch (togglePause gs) gs).
Proof.
  intros Hwell. unfold togglePause. by destruct gs.(gameOver).
Qed.

Lemma perform_wellPlaced (fuel : nat) (gs gs' : GameState) (rng rng' : Rng)
    (call : Call) :
  wellPlaced gs → perform fuel (gs, rng) call = Some (gs', rng') →
  gs'.(gameOver) = false → wellPlaced gs'.
Proof.
  intros Hwell. destruct call as [dx dy| | |]; unfold perform; cbn [fst snd].
  - pose proof (movePiece_wellPlaced gs dx dy rng Hwell) as Hstep.
    destruct (movePiece gs dx dy rng) as [a r]. intros [= <- _]. exact Hstep.
  - intros [= <- _] _. by apply rotate_wellPlaced.
  - destruct (hardDrop fuel gs rng) as [[a r]|] eqn:Hdrop; [|done].
    intros [= <- _]. by eapply hardDrop_wellPlaced.
  - intros [= <- _] _. by apply togglePause_wellPlaced.
Qed.

(** A state that is over stays as it is under every call. *)
Lemma perform_gameOver (fuel : nat) (gs : GameState) (rng : Rng) (call : Call) :
  gs.(gameOver) = true → perform fuel (gs, rng) call = Some (gs, rng).
Proof.
  intros Hover.
  assert (Hg : gs.(gameOver) || gs.(paused) = true) by (by rewrite Hover).
  destruct call as [dx dy| | |]; unfold perform; cbn [fst snd].
  - by rewrite movePiece_guarded.
  - by rewrite rotate_guarded.
  - by rewrite hardDrop_guarded.
  - unfold togglePause. by rewrite Hover.
Qed.

Lemma performAll_gameOver (fuel : nat) (gs : GameState) (rng : Rng)
    (calls : list Call) :
  gs.(gameOver) = true → performAll fuel (gs, rng) calls = Some (gs, rng).
Proof.
  intros Hover. induction calls as [|call rest IH]; [done|].
  simpl. by rewrite perform_gameOver.
Qed.

(** X1. Through any run of calls of [movePiece], [rotate], [hardDrop] and
    [togglePause], as long as the game has not ended, the active piece is a
    valid placement on the grid of the state: it lies within the grid and
    over empty cells. *)
Theorem active_piece_stays_valid (fuel : nat) (calls : list Call)
    (gs gs' : GameState) (rng rng' : Rng) :
  wellPlaced gs →
  performAll fuel (gs, rng) calls = Some (gs', rng') →
  gs'.(gameOver) = false →
  wellPlaced gs'.
Proof.
  revert gs rng. induction calls as [|call rest IH]; intros gs rng Hwell.
  { by intros [= <- _]. }
  simpl. destruct (perform fuel (gs, rng) call) as [[gs1 rng1]|] eqn:Hstep; [|done].
  cbn [mbind option_bind]. intros Hrun Hrunning.
  destruct gs1.(gameOver) eqn:Hover.
  - rewrite performAll_gameOver in Hrun by done. congruence.
  - eapply IH; [|exact Hrun|exact Hrunning].
    by eapply perform_wellPlaced.
Qed.

(** ** The level follows the line total *)

Lemma perform_levelMatches (fuel : nat) (gs gs' : GameState) (rng rng' : Rng)
    (call : Call) :
  levelMatches gs → perform fuel (gs, rng) call = Some (gs', rng') →
  levelMatches gs'.
Proof.
  intros Hlevel.
  assert (Hmove : ∀ dx dy, levelMatches (dispatch (movePiece gs dx dy rng).1 gs)).
  { intros dx dy. movePiece_paths gs dx dy rng; cbn [fst dispatch]; done. }
  destruct call as [dx dy| | |]; unfold perform; cbn [fst snd].
  - specialize (Hmove dx dy). destruct (movePiece gs dx dy rng) as [a r].
    by intros [= <- _].
  - intros [= <- _]. unfold rotate.
    destruct (gs.(gameOver) || gs.(paused)); [done|].
    destruct gs.(currentPiece) as [current|]; [|done].
    by destruct (isValidMove gs.(board) (rotateTetromino current) 0 0).
  - unfold hardDrop.
    destruct (gs.(gameOver) || gs.(paused)); [by intros [= <- _]|].
    destruct gs.(currentPiece) as [current|]; [|by intros [= <- _]].
    destruct (dropLoop fuel gs.(board) current 0) as [d|]; [|done].
    cbn [mbind option_bind]. destruct (0 <? d); [|by intros [= <- _]].
    specialize (Hmove 0 d). destruct (movePiece gs 0 d rng) as [a r].
    by intros [= <- _].
  - intros [= <- _]. unfold togglePause. by destruct gs.(gameOver).
Qed.

(** X2. The level of the state is [calculateLevel] of its line total, and
    stays so through any run of calls, the lock that ends the game
    included: that one changes neither. *)
Theorem level_follows_lines (fuel : nat) (calls : list Call)
    (gs gs' : GameState) (rng rng' : Rng) :
  levelMatches gs →
  performAll fuel (gs, rng) calls = Some (gs', rng') →
  levelMatches gs'.
Proof.
  revert gs rng. induction calls as [|call rest IH]; intros gs rng Hlevel.
  { by intros [= <- _]. }
  simpl. destruct (perform fuel (gs, rng) call) as [[gs1 rng1]|] eqn:Hstep; [|done].
  cbn [mbind option_bind]. intros Hrun.
  eapply IH; [|exact Hrun]. by eapply perform_levelMatches.
Qed.

(** ** Keys *)

(** X3. In a game that is not over, two presses of the pause key, each
    either [p] or [P], bring the state back to what it was: the first
    flips the pause flag and nothing else, the second flips it back. *)
Theorem pause_key_twice_restores (fuel : nat) (gs : GameState) (rng : Rng)
    (first second : string) :
  gs.(gameOver) = false →
  first = "p" ∨ first = "P" → second = "p" ∨ second = "P" →
  (∃ gs1, pressKey fuel (gs, rng) first = Some (gs1, rng)
     ∧ gs1.(paused) = negb gs.(paused)
     ∧ gs1.(board) = gs.(board) ∧ gs1.(currentPiece) = gs.(currentPiece)
     ∧ gs1.(nextPiece) = gs.(nextPiece) ∧ gs1.(score) = gs.(score)
     ∧ gs1.(level) = gs.(level) ∧ gs1.(lines) = gs.(lines)
     ∧ gs1.(gameOver) = false)
  ∧ pressKeys fuel (gs, rng) [first; second] = Some (gs, rng).
Proof.
  intros Hover Hfirst Hsecond.
  assert (Hkey : ∀ key (st : GameState), st.(gameOver) = false →
            key = "p" ∨ key = "P" →
            pressKey fuel (st, rng) key = Some (dispatch (togglePause st) st, rng)).
  { intros key st Hst Hk. unfold pressKey, handleKeyDown. cbn [fst snd]. rewrite Hst.
    destruct Hk as [->| ->]; repeat case_decide; try done;
      exfalso; match goal with H : ¬ (_ ∨ _) |- _ => apply H; by eauto end. }
  assert (Htoggle : ∀ st : GameState, st.(gameOver) = false →
            dispatch (togglePause st) st =
              {| board := st.(board); currentPiece := st.(currentPiece);
                 nextPiece := st.(nextPiece); score := st.(score);
                 level := st.(level); lines := st.(lines);
                 gameOver := st.(gameOver); paused := negb st.(paused) |}).
  { intros st Hst. unfold togglePause. rewrite Hst. cbn. by rewrite Hst. }
  split.
  - exists (dispatch (togglePause gs) gs). split; [by apply Hkey|].
    rewrite (Htoggle gs Hover). by repeat split.
  - simpl. rewrite Hkey by done. cbn [mbind option_bind].
    rewrite Hkey; [|by rewrite Htoggle|done]. cbn [mbind option_bind].
    rewrite (Htoggle (dispatch _ _)), Htoggle by (by rewrite ?Htoggle).
    cbn. rewrite negb_involutive. by destruct gs.
Qed.

Lemma dropLoop_valid (b : list (list (option string))) (piece : Tetromino) :
  ∀ (fuel : nat) (start d : Z),
    dropLoop fuel b piece start = Some d →
    start ≤ d ∧ (start < d → isValidMove b piece 0 d = true).
Proof.
  induction fuel as [|fuel IH]; intros start d; [done|]. simpl.
  destruct (isValidMove b piece 0 (start + 1)) eqn:Hnext.
  - intros Hrun. destruct (IH _ _ Hrun) as [Hle Hvalid]. split; [lia|].
    intros _. destruct (decide (d = start + 1)) as [->|]; [done|].
    apply Hvalid. lia.
  - intros [= <-]. split; lia.
Qed.

(** X4. Only the down arrow can lock a piece. A press of any other key,
    served in any state, keeps the grid, the queued piece, the score, the
    level, the line total and the game-over flag, and draws nothing from
    the random source; the hard drop on the space bar is one of them. *)
Theorem only_arrow_down_locks (fuel : nat) (gs gs' : GameState) (rng rng' : Rng)
    (key : string) :
  key ≠ "ArrowDown" →
  pressKey fuel (gs, rng) key = Some (gs', rng') →
  gs'.(board) = gs.(board) ∧ gs'.(nextPiece) = gs.(nextPiece)
  ∧ gs'.(score) = gs.(score) ∧ gs'.(level) = gs.(level)
  ∧ gs'.(lines) = gs.(lines) ∧ gs'.(gameOver) = gs.(gameOver)
  ∧ rng' = rng.
Proof.
  intros Hkey.
  assert (Hside : ∀ dx, ∃ a, movePiece gs dx 0 rng = (a, rng)
            ∧ (dispatch a gs).(board) = gs.(board)
            ∧ (dispatch a gs).(nextPiece) = gs.(nextPiece)
            ∧ (dispatch a gs).(score) = gs.(score)
            ∧ (dispatch a gs).(level) = gs.(level)
            ∧ (dispatch a gs).(lines) = gs.(lines)
            ∧ (dispatch a gs).(gameOver) = gs.(gameOver)).
  { intros dx. movePiece_paths gs dx 0 rng; try lia; eexists; by repeat split. }
  unfold pressKey, handleKeyDown. cbn [fst snd].
  destruct gs.(gameOver) eqn:Hover.
  { cbn [mbind option_bind]. intros [= <- <-]. by repeat split. }
  repeat case_decide; try done.
  - destruct (Hside (-1)) as (a & -> & Hframe). cbn [mbind option_bind].
    intros [= <- <-]. destruct Hframe as (? & ? & ? & ? & ? & ?).
    repeat split; congruence.
  - destruct (Hside 1) as (a & -> & Hframe). cbn [mbind option_bind].
    intros [= <- <-]. destruct Hframe as (? & ? & ? & ? & ? & ?).
    repeat split; congruence.
  - cbn [mbind option_bind]. intros [= <- <-]. unfold rotate. rewrite Hover.
    destruct (false || gs.(paused)); [by repeat split|].
    destruct gs.(currentPiece) as [current|]; [|by repeat split].
    destruct (isValidMove gs.(board) (rotateTetromino current) 0 0);
      cbn [dispatch]; by repeat split.
  - unfold hardDrop. rewrite Hover.
    destruct (false || gs.(paused)) eqn:Hpaused.
    { cbn [mbind option_bind]. intros [= <- <-]. by repeat split. }
    destruct gs.(currentPiece) as [current|] eqn:Hcur.
    2:{ cbn [mbind option_bind]. intros [= <- <-]. by repeat split. }
    destruct (dropLoop fuel gs.(board) current 0) as [d|] eqn:Hloop; [|done].
    cbn [mbind option_bind].
    destruct (Z.ltb_spec 0 d) as [Hpos|_].
    2:{ cbn [mbind option_bind]. intros [= <- <-]. by repeat split. }
    destruct (dropLoop_valid _ _ _ _ _ Hloop) as [_ Hvalid].
    assert (Hmove : isValidMove gs.(board) (shiftPiece current 0 d) 0 0 = true).
    { rewrite isValidMove_shiftPiece. by apply Hvalid. }
    unfold movePiece. rewrite Hover, Hpaused, Hcur, Hmove.
    cbn [mbind option_bind]. intros [= <- <-]. cbn [dispatch]. by repeat split.
  - cbn [mbind option_bind]. intros [= <- <-]. unfold togglePause. rewrite Hover.
    cbn [negb dispatch]. by repeat split.
  - cbn [mbind option_bind]. intros [= <- <-]. by repeat split.
Qed.

End ComponentFacts.

Section ComponentRuns.

Import Sample.

Abbreviation performAll :=
  (performAll WIDTH HEIGHT calculateScore calculateLevel rotateTetromino nat
     createTetromino).
Abbreviation pressKey :=
  (pressKey WIDTH HEIGHT calculateScore calculateLevel rotateTetromino nat
     createTetromino).
Abbreviation pressKeys :=
  (pressKeys WIDTH HEIGHT calculateScore calculateLevel rotateTetromino nat
     createTetromino).

(** From the opening: a step to the left, a rotation, a hard drop, and the
    tick that locks the square and spawns the next one. *)
Lemma active_piece_stays_valid_witness :
  ∃ gs' rng',
    performAll 30 (opening, 0%nat)
      [CallMovePiece (-1) 0; CallRotate; CallHardDrop; CallMovePiece 0 1]
      = Some (gs', rng')
    ∧ gs'.(board) ≠ opening.(board)
    ∧ wellPlaced WIDTH HEIGHT gs'.
Proof.
  destruct (performAll 30 (opening, 0%nat)
              [CallMovePiece (-1) 0; CallRotate; CallHardDrop; CallMovePiece 0 1])
    as [[gs' rng']|] eqn:Hrun; [|vm_compute in Hrun; discriminate].
  exists gs', rng'. split; [reflexivity|].
  pose proof Hrun as Hvalue. vm_compute in Hvalue. injection Hvalue as Hgs _.
  split; [rewrite <- Hgs; vm_compute; discriminate|].
  apply (active_piece_stays_valid WIDTH HEIGHT calculateScore calculateLevel
           rotateTetromino nat createTetromino 30
           [CallMovePiece (-1) 0; CallRotate; CallHardDrop; CallMovePiece 0 1]
           opening gs' 0%nat rng').
  - intros current [= <-]. reflexivity.
  - exact Hrun.
  - rewrite <- Hgs. reflexivity.
Defined.

(** The tenth line: the level goes from 0 to 1 with the line total. *)
Lemma level_follows_lines_witness :
  ∃ gs' rng',
    performAll 30 (nearlyCleared, 0%nat) [CallMovePiece 0 1; CallMovePiece 1 0]
      = Some (gs', rng')
    ∧ gs'.(lines) = 10
    ∧ levelMatches calculateLevel gs'.
Proof.
  destruct (performAll 30 (nearlyCleared, 0%nat) [CallMovePiece 0 1; CallMovePiece 1 0])
    as [[gs' rng']|] eqn:Hrun; [|vm_compute in Hrun; discriminate].
  exists gs', rng'. split; [reflexivity|].
  pose proof Hrun as Hvalue. vm_compute in Hvalue. injection Hvalue as Hgs _.
  split; [rewrite <- Hgs; reflexivity|].
  apply (level_follows_lines WIDTH HEIGHT calculateScore calculateLevel
           rotateTetromino nat createTetromino 30
           [CallMovePiece 0 1; CallMovePiece 1 0] nearlyCleared gs' 0%nat rng').
  - reflexivity.
  - exact Hrun.
Defined.

(** The opening, paused with [p] and resumed with [P]. *)
Lemma pause_key_twice_restores_witness :
  pressKeys 30 (opening, 0%nat) ["p"; "P"] = Some (opening, 0%nat).
Proof.
  apply (pause_key_twice_restores WIDTH HEIGHT calculateScore calculateLevel
           rotateTetromino nat createTetromino 30 opening 0%nat "p" "P");
    [reflexivity | by left | by right].
Defined.

(** The space bar on the opening: the square goes to the floor and the
    grid stays empty. *)
Lemma only_arrow_down_locks_witness :
  ∃ gs', pressKey 30 (opening, 0%nat) " " = Some (gs', 0%nat)
    ∧ gs'.(currentPiece) = Some (square 4 18)
    ∧ gs'.(board) = opening.(board).
Proof.
  destruct (pressKey 30 (opening, 0%nat) " ") as [[gs' rng']|] eqn:Hrun;
    [|vm_compute in Hrun; discriminate].
  destruct (only_arrow_down_locks WIDTH HEIGHT calculateScore calculateLevel
              rotateTetromino nat createTetromino 30 opening gs' 0%nat rng' " ")
    as (Hboard & _ & _ & _ & _ & _ & ->); [discriminate | exact Hrun |].
  exists gs'. split; [reflexivity|]. split; [|exact Hboard].
  vm_compute in Hrun. injection Hrun as <-. reflexivity.
Defined.

End ComponentRuns.

(** * Further properties of the board renderer *)

Section BoardFacts.

Variable BOARD_WIDTH BOARD_HEIGHT : Z.

Abbreviation overlay := (overlay BOARD_WIDTH BOARD_HEIGHT).
Abbreviation displayBoard := (displayBoard BOARD_WIDTH BOARD_HEIGHT).
Abbreviation BoardElements := (BoardElements BOARD_WIDTH BOARD_HEIGHT).

(** With a row under every index below [BOARD_HEIGHT], every assignment of
    the loops finds its row. *)
Lemma overlay_runs (piece : Tetromino) (display : list nat) :
  (Z.to_nat BOARD_HEIGHT ≤ length display)%nat →
  ∀ (cells : list (nat * nat)) (h : gmap nat (list Slot)),
    (∀ l, l ∈ display → is_Some (h !! l)) →
    (overlay piece display cells h).2 = true
    ∧ ∀ l, l ∈ display → is_Some ((overlay piece display cells h).1 !! l).
Proof.
  intros Hheight. induction cells as [|rc rest IH]; intros h Hrows; [done|].
  simpl.
  set (boardY := piece.(position).(y) + Z.of_nat rc.1).
  set (boardX := piece.(position).(x) + Z.of_nat rc.2).
  destruct ((0 <=? boardY) && (boardY <? BOARD_HEIGHT)
            && (0 <=? boardX) && (boardX <? BOARD_WIDTH)) eqn:Hin; [|by apply IH].
  apply andb_true_iff in Hin as [[[Hy0 Hy1]%andb_true_iff _]%andb_true_iff _].
  apply Z.leb_le in Hy0. apply Z.ltb_lt in Hy1.
  destruct (lookup_lt_is_Some_2 display (Z.to_nat boardY)) as [l0 Hl0]; [lia|].
  rewrite Hl0.
  destruct (Hrows l0) as [row0 Hrow0]; [by eapply list_elem_of_lookup_2|].
  rewrite Hrow0. apply IH. intros l Hl.
  destruct (decide (l = l0)) as [->|Hne].
  - rewrite lookup_insert_eq. by eexists.
  - rewrite lookup_insert_ne by done. by apply Hrows.
Qed.

(** An occupied cell within the bounds whose row the display board lacks
    stops the loops with a [TypeError]. *)
Lemma overlay_throws (piece : Tetromino) (display : list nat) (r c : nat) :
  0 ≤ piece.(position).(y) + Z.of_nat r < BOARD_HEIGHT →
  0 ≤ piece.(position).(x) + Z.of_nat c < BOARD_WIDTH →
  (length display ≤ Z.to_nat (piece.(position).(y) + Z.of_nat r))%nat →
  ∀ (cells : list (nat * nat)) (h : gmap nat (list Slot)),
    (r, c) ∈ cells →
    (∀ l, l ∈ display → is_Some (h !! l)) →
    (overlay piece display cells h).2 = false.
Proof.
  intros Hy Hx Hshort. induction cells as [|rc rest IH]; intros h Hin Hrows.
  { by apply elem_of_nil in Hin. }
  simpl.
  set (boardY := piece.(position).(y) + Z.of_nat rc.1).
  set (boardX := piece.(position).(x) + Z.of_nat rc.2).
  destruct ((0 <=? boardY) && (boardY <? BOARD_HEIGHT)
            && (0 <=? boardX) && (boardX <? BOARD_WIDTH)) eqn:Hbounds.
  - destruct (display !! Z.to_nat boardY) as [l0|] eqn:Hl0; [|done].
    destruct (Hrows l0) as [row0 Hrow0]; [by eapply list_elem_of_lookup_2|].
    rewrite Hrow0.
    apply elem_of_cons in Hin as [<-|Hin].
    { apply lookup_lt_Some in Hl0. unfold boardY in Hl0. simpl in Hl0. lia. }
    apply IH; [done|]. intros l Hl.
    destruct (decide (l = l0)) as [->|Hne].
    + rewrite lookup_insert_eq. by eexists.
    + rewrite lookup_insert_ne by done. by apply Hrows.
  - apply elem_of_cons in Hin as [<-|Hin]; [|by apply IH].
    exfalso. unfold boardY, boardX in Hbounds. simpl in Hbounds.
    apply andb_false_iff in Hbounds
      as [[[Hb|Hb]%andb_false_iff|Hb]%andb_false_iff|Hb];
      [apply Z.leb_gt in Hb|apply Z.ltb_ge in Hb|apply Z.leb_gt in Hb|apply Z.ltb_ge in Hb];
      lia.
Qed.

Lemma rowElements_allocated (h : gmap nat (list Slot)) (rows : list nat) :
  (∀ l, l ∈ rows → is_Some (h !! l)) →
  ∃ elements, rowElements h rows = Some elements
    ∧ length elements = length rows
    ∧ ∀ i l row, rows !! i = Some l → h !! l = Some row →
        elements !! i = Some (cellElement <$> row).
Proof.
  induction rows as [|l rest IH]; intros Hrows.
  { exists []. by repeat split. }
  destruct (Hrows l) as [row Hrow]; [by left|].
  destruct IH as (elements & Hrest & Hlen & Hat).
  { intros k Hk. apply Hrows. by right. }
  exists ((cellElement <$> row) :: elements). simpl. rewrite Hrow, Hrest.
  split; [done|]. split; [by rewrite Hlen|].
  intros [|i] k rowk; simpl.
  - intros [= <-] Hk. congruence.
  - apply Hat.
Qed.

(** The rows that [copyRows] returns are arrays of the heap it returns. *)
Lemma copyRows_display_allocated (h : gmap nat (list Slot)) (board display : list nat) :
  (copyRows h board).2 = Some display →
  ∀ l, l ∈ display → is_Some ((copyRows h board).1 !! l).
Proof.
  intros Hrun l Hl.
  destruct (copyRows_copies board h display Hrun) as (Hlen & _ & _ & Hsame).
  apply list_elem_of_lookup_1 in Hl as [i Hi].
  destruct (Forall2_lookup_r _ _ _ _ _ Hsame Hi) as (l0 & _ & cells & _ & Hcells).
  by eexists.
Qed.

(** X5. On a board of at least [BOARD_HEIGHT] rows, whatever their lengths,
    the renderer does not throw, for any piece or none: it returns one
    element row per row of the board, read from as many newly allocated
    arrays; with no piece each of these holds exactly the cells of its
    row. *)
Theorem board_renders_when_tall_enough
    (h : gmap nat (list Slot)) (board : list nat) (currentPiece : option Tetromino) :
  Forall (λ l, is_Some (h !! l)) board →
  (Z.to_nat BOARD_HEIGHT ≤ length board)%nat →
  ∃ display elements,
    (displayBoard h board currentPiece).2 = Some display
    ∧ BoardElements h board currentPiece = Some elements
    ∧ length display = length board
    ∧ length elements = length board
    ∧ NoDup display
    ∧ (∀ l, l ∈ display → h !! l = None)
    ∧ (currentPiece = None →
       Forall2 (λ l l', (displayBoard h board currentPiece).1 !! l' = h !! l)
         board display).
Proof.
  intros Halloc Htall.
  destruct (copyRows_allocated board h Halloc) as [display Hdisplay].
  destruct (copyRows_copies board h display Hdisplay) as (Hlen & Hnodup & Hnew & Hsame).
  pose proof (copyRows_display_allocated h board display Hdisplay) as Hrows.
  pose proof (copyRows_extends board h) as Hext.
  unfold BoardElements, displayBoard.
  destruct (copyRows h board) as [h1 copies]. simpl in *. subst copies.
  destruct currentPiece as [piece|].
  - destruct (overlay_runs piece display ltac:(lia) (shapeCells piece.(shape)) h1 Hrows)
      as [Hok Hstill].
    destruct (overlay piece display _ h1) as [h2 ok]. simpl in *. subst ok.
    destruct (rowElements_allocated h2 display Hstill) as (elements & Hel & Hellen & _).
    exists display, elements. rewrite Hel. repeat split; try done. congruence.
  - destruct (rowElements_allocated h1 display Hrows) as (elements & Hel & Hellen & _).
    exists display, elements. rewrite Hel. simpl.
    repeat split; try done; [congruence|].
    intros _. apply Forall2_same_length_lookup. split; [done|].
    intros i l l' Hl Hl'.
    destruct (Forall2_lookup_lr _ _ _ _ _ _ Hsame Hl Hl') as (cells & Hcells & ->).
    destruct (proj1 (Forall_lookup _ _) Halloc i l Hl) as [held Hheld].
    rewrite Hheld, <- Hcells. eapply lookup_weaken; [exact Hheld|exact Hext].
Qed.

(** X6. On a board shorter than [BOARD_HEIGHT], the renderer throws as
    soon as the piece has an occupied cell within the bounds in a row the
    board lacks; the arrays of the heap hold what they held all the same. *)
Theorem board_throws_when_too_short
    (h : gmap nat (list Slot)) (board : list nat) (piece : Tetromino) (r c : nat) :
  Forall (λ l, is_Some (h !! l)) board →
  occupied piece.(shape) r c →
  0 ≤ piece.(position).(x) + Z.of_nat c < BOARD_WIDTH →
  Z.of_nat (length board) ≤ piece.(position).(y) + Z.of_nat r < BOARD_HEIGHT →
  (displayBoard h board (Some piece)).2 = None
  ∧ BoardElements h board (Some piece) = None
  ∧ ∀ l cells, h !! l = Some cells →
      (displayBoard h board (Some piece)).1 !! l = Some cells.
Proof.
  intros Halloc Hocc Hx Hy.
  destruct (copyRows_allocated board h Halloc) as [display Hdisplay].
  destruct (copyRows_copies board h display Hdisplay) as (Hlen & _ & Hnew & _).
  pose proof (copyRows_display_allocated h board display Hdisplay) as Hrows.
  pose proof (copyRows_extends board h) as Hext.
  unfold BoardElements, displayBoard.
  destruct (copyRows h board) as [h1 copies]. simpl in *. subst copies.
  pose proof (overlay_throws piece display r c ltac:(lia) Hx ltac:(lia)
                (shapeCells piece.(shape)) h1
                (proj2 (elem_of_shapeCells _ _ _) Hocc) Hrows) as Hthrown.
  pose proof (overlay_frame BOARD_WIDTH BOARD_HEIGHT piece display
                (shapeCells piece.(shape)) h1) as Hframe.
  destruct (overlay piece display _ h1) as [h2 ok]. simpl in *. subst ok.
  split; [done|]. split; [done|].
  intros l cells Hl. rewrite Hframe.
  - eapply lookup_weaken; [exact Hl|exact Hext].
  - intros Hin. apply Hnew in Hin. congruence.
Qed.



End BoardFacts.

(** The small grid under a square that hangs over two of its edges. *)
Lemma board_renders_when_tall_enough_witness :
  ∃ elements,
    BoardElements 3 2 Sample.smallHeap [0; 1]%nat (Some (Sample.square 2 1))
      = Some elements
    ∧ length elements = 2%nat.
Proof.
  destruct (board_renders_when_tall_enough 3 2 Sample.smallHeap [0; 1]%nat
              (Some (Sample.square 2 1)))
    as (display & elements & _ & Hel & _ & Hlen & _).
  - repeat constructor; by eexists.
  - vm_compute. lia.
  - exists elements. split; [exact Hel | exact Hlen].
Defined.

(** The small grid rendered as if the grid had three rows: the square
    reaches the row that is not there. *)
Lemma board_throws_when_too_short_witness :
  BoardElements 3 3 Sample.smallHeap [0; 1]%nat (Some (Sample.square 1 1)) = None
  ∧ Sample.smallHeap ⊆
      (displayBoard 3 3 Sample.smallHeap [0; 1]%nat (Some (Sample.square 1 1))).1.
Proof.
  destruct (board_throws_when_too_short 3 3 Sample.smallHeap [0; 1]%nat
              (Sample.square 1 1) 1 0)
    as (_ & Hnone & Hkept).
  - repeat constructor; by eexists.
  - exists [1; 1], 1. split; [reflexivity|]. split; [reflexivity|lia].
  - simpl. lia.
  - simpl. lia.
  - split; [exact Hnone|]. apply map_subseteq_spec. exact Hkept.
Defined.


(** * Properties of the chat reader *)

Module ChatFacts.

Import Chat.

Lemma append_cons (ch : Ascii.ascii) (a b : string) :
  String ch a +:+ b = String ch (a +:+ b).
Proof. reflexivity. Qed.

Lemma append_assoc (a b c : string) : (a +:+ b) +:+ c = a +:+ (b +:+ c).
Proof. induction a as [|ch a IH]; [done|]. by rewrite !append_cons, IH. Qed.

Lemma split_step (c c' : Ascii.ascii) (rest : string) :
  split (String c (String c' rest))
  = if Ascii.eqb c LF && Ascii.eqb c' LF
    then "" :: split rest
    else extend c (split (String c' rest)).
Proof. reflexivity. Qed.

Lemma extend_nonempty (c : Ascii.ascii) (segments : list string) :
  extend c segments ≠ [].
Proof. by destruct segments. Qed.

Lemma split_nonempty (s : string) : split s ≠ [].
Proof.
  destruct s as [|c [|c' rest]]; [done|done|].
  rewrite split_step. destruct (Ascii.eqb c LF && Ascii.eqb c' LF); [done|].
  apply extend_nonempty.
Qed.

(** A string without two line feeds in a row is its own single segment;
    any other string has at least two segments. *)
Lemma split_single_or_more (s : string) :
  split s = [s] ∨ ∃ s1 s2 l, split s = s1 :: s2 :: l.
Proof.
  assert (H : ∀ s, (split s = [s] ∨ ∃ s1 s2 l, split s = s1 :: s2 :: l)
                 ∧ ∀ c, split (String c s) = [String c s]
                        ∨ ∃ s1 s2 l, split (String c s) = s1 :: s2 :: l).
  { clear s. induction s as [|c' rest [IH1 IH2]].
    - split; [by left|]. intros c. by left.
    - split; [apply IH2|]. intros c. rewrite split_step.
      destruct (Ascii.eqb c LF && Ascii.eqb c' LF).
      + right. destruct (split rest) as [|s1 l] eqn:Hrest.
        * by apply split_nonempty in Hrest.
        * by eexists _, _, _.
      + destruct (IH2 c') as [->|(s1 & s2 & l & ->)]; [by left|].
        right. by eexists _, _, _. }
  apply H.
Qed.

(** Splitting what has been received so far and what comes next in one go
    gives the segments that were complete, and then the split of the
    pending segment followed by what comes next. *)
Lemma split_app (a b : string) :
  split (a +:+ b)
  = removelast (split a) ++ split (default "" (last (split a)) +:+ b).
Proof.
  assert (H : ∀ a,
    (∀ b, split (a +:+ b)
          = removelast (split a) ++ split (default "" (last (split a)) +:+ b))
    ∧ ∀ c b, split (String c a +:+ b)
          = removelast (split (String c a))
            ++ split (default "" (last (split (String c a))) +:+ b)).
  { clear a b. induction a as [|c' rest [IH1 IH2]].
    - split; [done|]. intros c b. done.
    - split; [apply IH2|]. intros c b.
      rewrite !append_cons, !split_step.
      destruct (Ascii.eqb c LF && Ascii.eqb c' LF) eqn:Hsep.
      + rewrite IH1. destruct (split rest) as [|s1 l] eqn:Hrest.
        * by apply split_nonempty in Hrest.
        * done.
      + rewrite <- append_cons.
        destruct (split_single_or_more (String c' rest)) as [Hone|(s1 & s2 & l & Hmore)].
        * rewrite Hone.
          change (removelast (extend c [String c' rest])) with (@nil string).
          change (default "" (last (extend c [String c' rest])))
            with (String c (String c' rest)).
          by rewrite !append_cons, split_step, Hsep.
        * rewrite IH2, Hmore. done. }
  apply H.
Qed.

Lemma concat_extend (c : Ascii.ascii) (segments : list string) :
  segments ≠ [] →
  String.concat blankLine (extend c segments)
  = String c (String.concat blankLine segments).
Proof. destruct segments as [|s1 [|s2 l]]; done. Qed.

(** The segments, joined again by blank lines, are the string that was
    split: the split loses nothing and invents nothing. *)
Lemma concat_split (s : string) : String.concat blankLine (split s) = s.
Proof.
  assert (H : ∀ s, String.concat blankLine (split s) = s
                 ∧ ∀ c, String.concat blankLine (split (String c s)) = String c s).
  { clear s. induction s as [|c' rest [IH1 IH2]]; [done|].
    split; [apply IH2|]. intros c. rewrite split_step.
    destruct (Ascii.eqb c LF && Ascii.eqb c' LF) eqn:Hsep.
    - apply andb_true_iff in Hsep as [->%Ascii.eqb_eq ->%Ascii.eqb_eq].
      pose proof (split_nonempty rest) as Hne.
      destruct (split rest) as [|s1 l] eqn:Hrest; [done|].
      change (String.concat blankLine ("" :: s1 :: l))
        with (String LF (String LF (String.concat blankLine (s1 :: l)))).
      by rewrite IH1.
    - rewrite concat_extend by apply split_nonempty. by rewrite IH2. }
  apply H.
Qed.


Lemma append_empty_r (a : string) : a +:+ "" = a.
Proof. induction a as [|ch a IH]; [done|]. by rewrite append_cons, IH. Qed.

Section ReaderFacts.

Variable Value : Type.
Variable Id : Type.
Variable readId : Value -> option Id.
Variable strictEq : Id -> Id -> bool.
Variable JSON_parse : string -> option (Parsed Value).

Abbreviation some := (some Value Id readId strictEq).
Abbreviation addMessage := (addMessage Value Id readId strictEq).
Abbreviation receiveLine := (receiveLine Value Id readId strictEq JSON_parse).
Abbreviation processChunk := (processChunk Value Id readId strictEq JSON_parse).
Abbreviation readable := (readable Value Id readId).
Abbreviation distinctIds := (distinctIds Value Id readId strictEq).

Lemma processChunk_twice (st : string * option (list Value)) (c1 c2 : string) :
  processChunk (processChunk st c1) c2 = processChunk st (c1 +:+ c2).
Proof.
  unfold processChunk. cbn [fst snd].
  rewrite <- append_assoc, (split_app (st.1 +:+ c1) c2).
  set (lines1 := split (st.1 +:+ c1)).
  set (lines2 := split (default "" (last lines1) +:+ c2)).
  assert (Hne : lines2 ≠ []) by apply split_nonempty.
  rewrite removelast_app, foldl_app by done.
  f_equal. rewrite last_app. by destruct (last lines2) eqn:Hlast; [|apply last_None in Hlast].
Qed.

(** X8. The reader does not depend on how the stream is cut into chunks:
    fed the chunks one by one, it ends with the buffer and the message
    list it has after the whole stream in a single chunk. Events that
    span chunk boundaries, and blank lines cut in two, are handled
    alike. *)
Theorem reader_ignores_chunk_boundaries
    (st : string * option (list Value)) (chunk : string) (chunks : list string) :
  foldl processChunk st (chunk :: chunks)
  = processChunk st (chunk +:+ String.concat "" chunks).
Proof.
  revert chunk. induction chunks as [|next rest IH]; intros chunk.
  { simpl. by rewrite append_empty_r. }
  change (foldl processChunk st (chunk :: next :: rest))
    with (foldl processChunk (processChunk (processChunk st chunk) next) rest).
  rewrite processChunk_twice.
  change (foldl processChunk (processChunk st (chunk +:+ next)) rest)
    with (foldl processChunk st ((chunk +:+ next) :: rest)).
  rewrite IH, append_assoc. f_equal. f_equal.
  destruct rest as [|r rest']; [by rewrite append_empty_r|done].
Qed.


(** ** The updater of the message list *)

Lemma some_cons (msg : Value) (rest : list Value) (message : Value) :
  some (msg :: rest) message
  = a ← readId msg; b ← readId message;
    if strictEq a b then Some true else some rest message.
Proof. reflexivity. Qed.

(** When the scan finds nothing, every id it met differs from the new
    one. *)
Lemma some_false (prev : list Value) (message : Value) :
  some prev message = Some false →
  ∀ i msg a b, prev !! i = Some msg → readId msg = Some a →
    readId message = Some b → strictEq a b = false.
Proof.
  induction prev as [|head rest IH]; intros Hscan i msg a b Hi Ha Hb; [done|].
  rewrite some_cons in Hscan.
  destruct (readId head) as [a'|] eqn:Hhead; [|done].
  rewrite Hb in Hscan. cbn in Hscan.
  destruct (strictEq a' b) eqn:Heq; [done|].
  destruct i as [|i]; simpl in Hi.
  - injection Hi as ->. congruence.
  - by eapply IH.
Qed.

(** The scan throws on nothing that can be read. *)
Lemma some_runs (prev : list Value) (message : Value) :
  Forall readable prev → readable message → is_Some (some prev message).
Proof.
  intros Hprev [b Hb]. induction Hprev as [|head rest [a Ha] _ IH]; [by eexists|].
  rewrite some_cons, Ha, Hb. cbn. by destruct (strictEq a b).
Qed.

Lemma some_true (prev : list Value) (message msg : Value) (a b : Id) :
  Forall readable prev → msg ∈ prev →
  readId msg = Some a → readId message = Some b → strictEq a b = true →
  some prev message = Some true.
Proof.
  intros Hprev Hin Ha Hb Heq.
  induction Hprev as [|head rest [a' Ha'] _ IH]; [by apply elem_of_nil in Hin|].
  rewrite some_cons, Ha', Hb. cbn.
  destruct (strictEq a' b) eqn:Hhead; [done|].
  apply elem_of_cons in Hin as [->|Hin]; [congruence|by apply IH].
Qed.

Lemma addMessage_keeps (prev next : list Value) (message : Value) :
  distinctIds prev → addMessage prev message = Some next →
  prev `prefix_of` next ∧ distinctIds next.
Proof.
  intros Hdistinct Hadd. unfold addMessage in Hadd.
  destruct (some prev message) as [[]|] eqn:Hscan; simplify_eq/=; [done|].
  split; [by apply prefix_app_r|].
  intros i j a b ia ib Hij Hi Hj Ha Hb.
  apply lookup_app_Some in Hj as [Hj|[Hlen Hj]].
  - apply lookup_app_Some in Hi as [Hi|[Hlen _]].
    + by eapply (Hdistinct i j).
    + apply lookup_lt_Some in Hj. lia.
  - apply list_lookup_singleton_Some in Hj as [Hlast <-].
    apply lookup_app_Some in Hi as [Hi|[Hlen' _]]; [|lia].
    by eapply some_false.
Qed.

Lemma receiveLine_keeps (prev next : list Value) (line : string) :
  distinctIds prev → receiveLine (Some prev) line = Some next →
  prev `prefix_of` next ∧ distinctIds next.
Proof.
  intros Hdistinct. unfold receiveLine.
  destruct (String.prefix "data: " line); [|by intros [= <-]].
  destruct (JSON_parse _) as [[message|]|]; [|by intros [= <-]..].
  cbn. by apply addMessage_keeps.
Qed.

Lemma receiveLine_failed (line : string) : receiveLine None line = None.
Proof.
  unfold receiveLine. destruct (String.prefix "data: " line); [|done].
  by destruct (JSON_parse _) as [[message|]|].
Qed.

Lemma receiveLines_keep (events : list string) (prev next : list Value) :
  distinctIds prev → foldl receiveLine (Some prev) events = Some next →
  prev `prefix_of` next ∧ distinctIds next.
Proof.
  revert prev. induction events as [|line events IH]; intros prev Hdistinct Hrun.
  { simpl in Hrun. by injection Hrun as <-. }
  simpl in Hrun. destruct (receiveLine (Some prev) line) as [mid|] eqn:Hline.
  - destruct (receiveLine_keeps _ _ _ Hdistinct Hline) as [Hprefix Hmid].
    destruct (IH _ Hmid Hrun) as [Hprefix' Hnext]. split; [by etrans|done].
  - exfalso. clear -Hrun. induction events as [|l events IH]; [done|].
    simpl in Hrun. rewrite receiveLine_failed in Hrun. by apply IH.
Qed.

Lemma receiveLines_run (events : list string) (prev : list Value) :
  (∀ data message, JSON_parse data = Some (MessageEvent message) → readable message) →
  Forall readable prev →
  ∃ next, foldl receiveLine (Some prev) events = Some next ∧ Forall readable next.
Proof.
  intros Hparse. revert prev.
  induction events as [|line events IH]; intros prev Hprev; [by exists prev|].
  simpl.
  assert (Hline : ∃ mid, receiveLine (Some prev) line = Some mid ∧ Forall readable mid).
  { unfold receiveLine. destruct (String.prefix "data: " line); [|by exists prev].
    destruct (JSON_parse _) as [[message|]|] eqn:Hdata; [|by exists prev..].
    apply Hparse in Hdata. cbn. unfold addMessage.
    destruct (some_runs prev message Hprev Hdata) as [found ->]. cbn.
    destruct found; [by exists prev|]. eexists. split; [done|].
    apply Forall_app. split; [done|]. by apply Forall_singleton. }
  destruct Hline as (mid & -> & Hmid). by apply IH.
Qed.

(** X10. The message list grows at its end only and keeps its ids apart,
    as long as the updater does not throw; and the updater throws when an
    event of type ['message'] carries no message. On a list whose ids are
    pairwise different ([===] is false on every pair), a chunk that leaves
    a list leaves one that begins with the old list and whose ids are still
    pairwise different. If every message event carries a value whose [id]
    can be read, and so do the elements of the list, the chunk does leave a
    list. A message that is [undefined] or [null] makes the updater throw,
    unless the list is empty, and then it is stored. A message whose id is
    already on the list is dropped. *)
Theorem messages_stay_distinct (buffer : string) (prev : list Value) (chunk : string) :
  Forall readable prev → distinctIds prev →
  (∀ next, (processChunk (buffer, Some prev) chunk).2 = Some next →
     prev `prefix_of` next ∧ distinctIds next)
  ∧ ((∀ data message, JSON_parse data = Some (MessageEvent message) → readable message) →
     ∃ next, (processChunk (buffer, Some prev) chunk).2 = Some next
       ∧ Forall readable next)
  ∧ (∀ message, ¬ readable message →
       addMessage prev message
       = match prev with [] => Some [message] | _ :: _ => None end)
  ∧ (∀ message msg a b, msg ∈ prev → readId msg = Some a →
       readId message = Some b → strictEq a b = true →
       addMessage prev message = Some prev).
Proof.
  intros Hreadable Hdistinct. split; [|split; [|split]].
  - intros next Hnext. unfold processChunk in Hnext. cbn [fst snd] in Hnext.
    by eapply receiveLines_keep.
  - intros Hparse. unfold processChunk. cbn [fst snd]. by apply receiveLines_run.
  - intros message Hnot. unfold addMessage.
    destruct Hreadable as [|head rest [a Ha] _]; [done|].
    rewrite some_cons, Ha. cbn.
    destruct (readId message) as [b|] eqn:Hb; [|done].
    exfalso. apply Hnot. by exists b.
  - intros message msg a b Hin Ha Hb Heq. unfold addMessage.
    by rewrite (some_true prev message msg a b).
Qed.

End ReaderFacts.

(** The first message is on the list. A chunk repeats it, then brings a
    line that does not parse and the second message: the list ends with the
    two messages. A chunk with an event that has no message leaves no
    list. *)
Lemma messages_stay_distinct_witness :
  (processChunk (option Message) Z sampleId Z.eqb sampleParse
     ("", Some [Some firstMessage])
     ("data: first" +:+ blankLine +:+ "data: {" +:+ blankLine
      +:+ "data: second" +:+ blankLine)).2
  = Some [Some firstMessage; Some secondMessage]
  ∧ distinctIds (option Message) Z sampleId Z.eqb
      [Some firstMessage; Some secondMessage]
  ∧ (processChunk (option Message) Z sampleId Z.eqb sampleParse
       ("", Some [Some firstMessage]) ("data: bare" +:+ blankLine)).2
    = None.
Proof.
  split; [reflexivity|]. split; [|reflexivity].
  assert (Hone : Forall (readable (option Message) Z sampleId) [Some firstMessage]).
  { apply Forall_singleton. by eexists. }
  assert (Hfirst : distinctIds (option Message) Z sampleId Z.eqb [Some firstMessage]).
  { intros i j a b ia ib Hij Hi Hj. apply lookup_lt_Some in Hj. simpl in Hj. lia. }
  destruct (messages_stay_distinct (option Message) Z sampleId Z.eqb sampleParse
              "" [Some firstMessage]
              ("data: first" +:+ blankLine +:+ "data: {" +:+ blankLine
               +:+ "data: second" +:+ blankLine) Hone Hfirst) as (Hkeeps & _).
  exact (proj2 (Hkeeps _ eq_refl)).
Defined.

End ChatFacts.

(** * Properties of the high-score panel and the game-over dialog *)

Module HighScoresFacts.

Import Fetch HighScores.


End HighScoresFacts.

Module GameOverModalFacts.

Import Fetch GameOverModal.

(** X12. A score counts as submitted only on a response that is ok.
    [handleSubmit] always ends the submitting state; it sets [submitted]
    exactly when the response is ok, and then clears the error. On a 401
    the error is the request to sign in, whatever the body says. After any
    failure the signed-in player gets the form back, enabled, with the
    error above it unless the error is the empty string. *)
Theorem score_submitted_only_when_ok (st : State) (outcome : Outcome Detail) :
  (handleSubmit st outcome).(submitting) = false
  ∧ (handleSubmit st outcome).(submitted)
    = st.(submitted) || match outcome with inr response => response.(ok) | inl _ => false end
  ∧ (∀ response, outcome = inr response → response.(ok) = true →
       handleSubmit st outcome = {| submitted := true; submitting := false; error := "" |}
       ∧ ∀ isAuthenticated, body isAuthenticated (handleSubmit st outcome) = Submitted)
  ∧ (∀ response, outcome = inr response → response.(ok) = false →
       response.(status) = 401 →
       (handleSubmit st outcome).(error) = "Please sign in to submit your score")
  ∧ (st.(submitted) = false →
     match outcome with inr response => response.(ok) | inl _ => false end = false →
     body (Some true) (handleSubmit st outcome)
       = SubmitForm (if String.eqb (handleSubmit st outcome).(error) ""
                     then None else Some (handleSubmit st outcome).(error))
                    false).
Proof.
  split; [|split; [|split; [|split]]].
  - unfold handleSubmit.
    destruct outcome as [e|[[] code [e|[|text]]]]; simpl; try done;
      by destruct (code =? 401).
  - unfold handleSubmit.
    destruct outcome as [e|[[] code [e|[|text]]]]; simpl;
      rewrite ?orb_true_r, ?orb_false_r; try done; by destruct (code =? 401).
  - intros response -> Hok. unfold handleSubmit. by rewrite Hok.
  - intros response -> Hok Hcode. unfold handleSubmit. rewrite Hok, Hcode. done.
  - intros Hnot Hfail. unfold body.
    assert (Hsub : (handleSubmit st outcome).(submitted) = false).
    { unfold handleSubmit.
      destruct outcome as [e|[[] code [e|[|text]]]]; simpl in *; try done;
        by destruct (code =? 401). }
    assert (Hing : (handleSubmit st outcome).(submitting) = false).
    { unfold handleSubmit.
      destruct outcome as [e|[[] code [e|[|text]]]]; simpl; try done;
        by destruct (code =? 401). }
    by rewrite Hsub, Hing.
Qed.

End GameOverModalFacts.
